(** * Heston Fourier pricing data generator: a shallow embedding

    The development follows [fourier.py] (characteristic function,
    integrand, call price, Latin-hypercube sampler, acceptance filter and
    batch loop) and [filter.py] (chunked CSV filter).

    Numbers are IEEE-754 binary64 values, as Python's [float] and NumPy's
    [float64] are: the kernel's primitive floats, whose operations are
    specified by [FloatAxioms] against [SpecFloat].  A complex number is a
    pair of such floats.  Functions of NumPy, SciPy and pandas whose code
    is not part of the repository (complex square root, exponential,
    logarithm and quotient, the QUADPACK integrator, the Latin-hypercube
    generator) are parameters of the sections that use them.  The real
    arguments of the pricing functions are NumPy [float64] scalars, as
    [main] passes rows of a NumPy array: a division by zero yields an
    infinity or a NaN and raises nothing.  The frequency is a number the
    integrator passes, a Python [float] between the limits of the
    integration; the definitions do not cover a frequency so large that
    its square overflows, for which Python's complex power raises
    [OverflowError]. *)

From Stdlib Require Import Floats ZArith List Bool Lia.
From stdpp Require Import gmap strings.
Import ListNotations.

#[local] Set Warnings "-inexact-float".

(** ** Complex numbers *)

Module Complex.

#[local] Open Scope float_scope.

Record complex := Cx { re : float; im : float }.

(** A real operand of a mixed operation is promoted to a complex
    number with imaginary part [+0]. *)
Definition of_real (x : float) : complex := Cx x 0.

Definition add (a b : complex) : complex :=
  Cx (re a + re b) (im a + im b).

Definition sub (a b : complex) : complex :=
  Cx (re a - re b) (im a - im b).

Definition neg (a : complex) : complex :=
  Cx (- re a) (- im a).

Definition mul (a b : complex) : complex :=
  Cx (re a * re b - im a * im b) (re a * im b + im a * re b).

(** [z ** 2]: a small integer power is a repeated product. *)
Definition pow2 (a : complex) : complex := mul a a.

End Complex.

Import Complex.

Declare Scope cx_scope.
Delimit Scope cx_scope with cx.
Bind Scope cx_scope with complex.
Infix "+" := Complex.add : cx_scope.
Infix "-" := Complex.sub : cx_scope.
Infix "*" := Complex.mul : cx_scope.
Notation "- z" := (Complex.neg z) : cx_scope.
Arguments Complex.of_real x%_float.

(** The promotion of a real operand, written as Python leaves it: silent. *)
Abbreviation cplx := Complex.of_real.

(** [x ** 2] on a [float64] scalar, as the correctly rounded square.
    NumPy computes it with the power function of the C library, which
    gives the same number where the development relies on it (at
    [x = 0] and where the square underflows to zero) and may differ
    from the rounded square in the last bit elsewhere. *)
Definition fpow2 (x : float) : float := (x * x)%float.

(** [np.pi] *)
Definition np_pi : float := 3.141592653589793%float.

(** ** The numerical routines the program imports *)

(** What the program takes from NumPy on complex arguments. *)
Record NumPy := {
  np_sqrt : complex -> complex;        (* principal square root *)
  np_exp : complex -> complex;
  np_log : complex -> complex;         (* principal logarithm *)
  np_log_real : float -> float;        (* [np.log] of a real argument *)
  np_divide : complex -> complex -> complex
}.

(** How a QUADPACK run ends.  The status "invalid input" cannot arise
    for the arguments the program passes ([epsabs = 1e-8 > 0],
    [limit = 100 >= 1]) and is left out. *)
Inductive ier : Set :=
| Converged            (* 0 *)
| LimitReached         (* 1: maximum number of subdivisions achieved *)
| RoundoffDetected     (* 2 *)
| BadIntegrand         (* 3 *)
| NotConverging        (* 4 *)
| Divergent.           (* 5 *)

(** An integrator sees the integrand only through the values it asks
    for: it is a finite tree of evaluation requests that ends with an
    estimate, an error bound and a status. *)
Inductive Quadpack : Type :=
| Done (result abserr : float) (status : ier)
| Eval (x : float) (k : float -> Quadpack).

Record quad_run := {
  q_result : float;
  q_abserr : float;
  q_status : ier;
  q_nodes : list float      (* the abscissae handed to the integrand, in order *)
}.

Fixpoint run_quadpack (f : float -> float) (q : Quadpack) : quad_run :=
  match q with
  | Done r e s => {| q_result := r; q_abserr := e; q_status := s; q_nodes := [] |}
  | Eval x k =>
      let rest := run_quadpack f (k (f x)) in
      {| q_result := q_result rest; q_abserr := q_abserr rest;
         q_status := q_status rest; q_nodes := x :: q_nodes rest |}
  end.

(** The adaptive routine behind [scipy.integrate.quad] for finite limits:
    arguments [a], [b], [limit], [epsabs], [epsrel]. *)
Definition Integrator := float -> float -> Z -> float -> float -> Quadpack.

(** [scipy.integrate.quad(f, a, b, limit=.., epsabs=.., epsrel=..)] with
    [full_output] left at 0: the pair [(result, abserr)] is returned
    whatever the status; a status other than [Converged] only makes the
    wrapper issue an [IntegrationWarning]. *)
Definition quad (qp : Integrator) (f : float -> float) (a b : float)
    (limit : Z) (epsabs epsrel : float) : float * float :=
  let run := run_quadpack f (qp a b limit epsabs epsrel) in
  (q_result run, q_abserr run).

(** ** fourier.py: the pricing engine *)

Section Pricing.

Context (np : NumPy).

#[local] Open Scope float_scope.

#[local] Notation "a / b" := (np_divide np a b) : cx_scope.

Definition heston_char_function (u t S0 r kappa theta sigma rho v0 : float)
  : complex :=
  let i := Cx 0 1 in
  let a := kappa * theta in
  let u := (cplx u - i)%cx in
  let d := np_sqrt np
    (pow2 (cplx (rho * sigma) * i * u - cplx kappa)
     + cplx (fpow2 sigma) * (i * u + pow2 u))%cx in
  let g := ((cplx kappa - cplx (rho * sigma) * i * u - d)
            / (cplx kappa - cplx (rho * sigma) * i * u + d))%cx in
  let C := (cplx r * i * u * cplx t
            + cplx (a / fpow2 sigma)
              * ((cplx kappa - cplx (rho * sigma) * i * u - d) * cplx t
                 - cplx 2
                   * np_log np ((cplx 1 - g * np_exp np (- d * cplx t))
                                / (cplx 1 - g))))%cx in
  let D := (((cplx kappa - cplx (rho * sigma) * i * u - d) / cplx (fpow2 sigma))
            * (cplx 1 - np_exp np (- d * cplx t))
            / (cplx 1 - g * np_exp np (- d * cplx t)))%cx in
  let phi := np_exp np (C + D * cplx v0 + i * u * cplx (np_log_real np S0))%cx in
  phi.

Definition heston_integrand (u S0 K t r kappa theta sigma rho v0 : float)
  : float :=
  let phi := heston_char_function u t S0 r kappa theta sigma rho v0 in
  let numerator :=
    (np_exp np (- (Cx 0 1) * cplx u * cplx (np_log_real np K)) * phi)%cx in
  let integrand := re (numerator / (Cx 0 1 * cplx u))%cx in
  integrand.

Context (qp : Integrator).

Definition heston_call_price (S0 K t r kappa theta sigma rho v0 : float)
  : float :=
  let integrand := fun u => heston_integrand u S0 K t r kappa theta sigma rho v0 in
  let '(integral, error) := quad qp integrand 0 100 100%Z 1e-8 1e-8 in
  let call_price := (S0 * 0.5) + (1 / np_pi) * integral in
  call_price.

(** The abscissae at which pricing one sample evaluates the integrand. *)
Definition heston_call_price_nodes (S0 K t r kappa theta sigma rho v0 : float)
  : list float :=
  q_nodes (run_quadpack
             (fun u => heston_integrand u S0 K t r kappa theta sigma rho v0)
             (qp 0 100 100%Z 1e-8 1e-8)).

End Pricing.

(** ** fourier.py: the sampler *)

(** A row of eight numbers: a unit-cube draw, or the eight parameters
    [(m, tau, r, rho, kappa, theta, sigma, v0)] of one sample. *)
Record vec8 := Vec8 {
  c0 : float; c1 : float; c2 : float; c3 : float;
  c4 : float; c5 : float; c6 : float; c7 : float
}.

(** [np.column_stack] of eight columns: row [k] collects entry [k] of
    every column. *)
Fixpoint column_stack (m tau r rho kappa theta sigma v0 : list float)
  : list vec8 :=
  match m, tau, r, rho, kappa, theta, sigma, v0 with
  | x0 :: m, x1 :: tau, x2 :: r, x3 :: rho,
    x4 :: kappa, x5 :: theta, x6 :: sigma, x7 :: v0 =>
      Vec8 x0 x1 x2 x3 x4 x5 x6 x7
      :: column_stack m tau r rho kappa theta sigma v0
  | _, _, _, _, _, _, _, _ => []
  end.

Section Sampler.

#[local] Open Scope float_scope.

(** [qmc.LatinHypercube(d=8).random(n)]: an [n]-by-8 matrix of draws. *)
Context (lhs_random : Z -> list vec8).

Definition generate_lhs_samples (samples : Z) : list vec8 :=
  let lhs_samples := lhs_random samples in
  let '(m_min, m_max) := (0.6, 1.4) in
  let '(tau_min, tau_max) := (0.1, 1.4) in
  let '(r_min, r_max) := (0.0, 0.10) in
  let '(rho_min, rho_max) := (-0.95, 0.0) in
  let '(kappa_min, kappa_max) := (0.0, 2.0) in
  let '(theta_min, theta_max) := (0.0, 0.5) in
  let '(sigma_min, sigma_max) := (0.0, 0.5) in
  let '(v0_min, v0_max) := (0.05, 0.5) in
  let m := map (fun x => m_min + x * (m_max - m_min)) (map c0 lhs_samples) in
  let tau := map (fun x => tau_min + x * (tau_max - tau_min)) (map c1 lhs_samples) in
  let r := map (fun x => r_min + x * (r_max - r_min)) (map c2 lhs_samples) in
  let rho := map (fun x => rho_min + x * (rho_max - rho_min)) (map c3 lhs_samples) in
  let kappa := map (fun x => kappa_min + x * (kappa_max - kappa_min)) (map c4 lhs_samples) in
  let theta := map (fun x => theta_min + x * (theta_max - theta_min)) (map c5 lhs_samples) in
  let sigma := map (fun x => sigma_min + x * (sigma_max - sigma_min)) (map c6 lhs_samples) in
  let v0 := map (fun x => v0_min + x * (v0_max - v0_min)) (map c7 lhs_samples) in
  column_stack m tau r rho kappa theta sigma v0.

End Sampler.

(** ** fourier.py: the acceptance filter and the batch loop *)

(** The test [0.0 < price < 0.66] of [main]: a chained comparison is the
    conjunction of its two comparisons. *)
Definition accept (price : float) : bool :=
  (0.0 <? price)%float && (price <? 0.66)%float.

(** The state of the loop of [main]: the rows kept so far and the
    progress counts printed so far. *)
Record loop_state := {
  result_data : list (list float);
  printed : list Z
}.

Section Main.

Context (np : NumPy) (qp : Integrator).

#[local] Open Scope float_scope.

Definition main_S0 : float := 1.0.

Definition sample_price (params : vec8) : float :=
  let '(Vec8 m tau r rho kappa theta sigma v0) := params in
  let K := main_S0 / m in
  heston_call_price np qp main_S0 K tau r kappa theta sigma rho v0.

Definition main_step (st : loop_state) (it : Z * vec8) : loop_state :=
  let '(idx, params) := it in
  let '(Vec8 m tau r rho kappa theta sigma v0) := params in
  let price := sample_price params in
  let result_data :=
    if accept price
    then result_data st ++ [[m; tau; r; rho; kappa; theta; sigma; v0; price]]
    else result_data st in
  let printed :=
    if ((idx + 1) mod 10 =? 0)%Z then printed st ++ [(idx + 1)%Z] else printed st in
  {| result_data := result_data; printed := printed |}.

(** [enumerate] *)
Definition enumerate {A} (l : list A) : list (Z * A) :=
  combine (map Z.of_nat (seq 0 (length l))) l.

Definition main_loop (param_sets : list vec8) : loop_state :=
  fold_left main_step (enumerate param_sets)
    {| result_data := []; printed := [] |}.

End Main.

(** ** fourier.py: the output file and [main] *)

(** A CSV file: a header line, then rows of numbers. *)
Record csv_file := { csv_header : list string; csv_rows : list (list float) }.

(** [save_to_csv]: the file is opened with [mode='w'], so what it held
    is replaced. *)
Definition save_to_csv (data : list (list float)) (filename : string)
    (files : gmap string csv_file) : gmap string csv_file :=
  let header := ["moneyness"; "tau"; "r"; "rho"; "kappa"; "theta"; "sigma";
                 "initial_variance"; "option_price"]%string in
  <[filename := {| csv_header := header; csv_rows := data |}]> files.

(** How a run of [main] ends: it returns, or an exception leaves it. *)
Inductive exception := ValueError.
Inductive outcome := Returned | Raised (e : exception).

Section Program.

Context (np : NumPy) (qp : Integrator).

(** [qmc.LatinHypercube(d=8).random(n)] for [n >= 0]. *)
Context (lhs_random : Z -> list vec8).

(** [main] for the number [N] read from the input, on the files
    present.  For a negative [N] the sampler's [random(n=N)] raises
    [ValueError] ("negative dimensions are not allowed") inside
    [generate_lhs_samples], before the loop and before any file is
    opened. *)
Definition main (N : Z) (files : gmap string csv_file)
  : outcome * gmap string csv_file :=
  if (N <? 0)%Z then (Raised ValueError, files)
  else
    let param_sets := generate_lhs_samples lhs_random N in
    let st := main_loop np qp param_sets in
    (Returned, save_to_csv (result_data st) "Fourier_Prices.csv" files).

End Program.

(** ** filter.py: the chunked filter *)

(** A row of the input table: the two columns the script reads, and the
    other columns as they are. *)
Record row := {
  moneyness : float;
  initial_variance : float;
  other_columns : list float
}.

(** A line of the output file. *)
Inductive line := HeaderLine | RowLine (r : row).

(** [x > y] on binary64 numbers is [y < x]. *)
Notation "x >? y" := (PrimFloat.ltb y x) (only parsing) : float_scope.

(** The mask of line 18 of [filter.py], row by row. *)
Definition keep (r : row) : bool :=
  ((moneyness r >? 0.6) && (moneyness r <? 1.4)
   && (initial_variance r >? 0.05) && (initial_variance r <? 0.5))%float.

(** [DataFrame.to_csv(output_filename, mode=.., header=.., index=False)] *)
Definition to_csv (rows : list row) (append header : bool) (file : list line)
  : list line :=
  (if append then file else [])
  ++ (if header then [HeaderLine] else []) ++ map RowLine rows.

Record filter_state := {
  output_file : list line;
  header : bool;
  total_filtered : Z
}.

Definition filter_step (st : filter_state) (chunk : list row) : filter_state :=
  let filtered_chunk := List.filter keep chunk in
  {| output_file :=
       to_csv filtered_chunk (negb (header st)) (header st) (output_file st);
     header := false;
     total_filtered := (total_filtered st + Z.of_nat (length filtered_chunk))%Z |}.

(** The loop of [filter.py] over the chunks [pd.read_csv] yields; [old]
    is what the output file held before the run. *)
Definition filter_script (old : list line) (chunks : list (list row))
  : filter_state :=
  fold_left filter_step chunks
    {| output_file := old; header := true; total_filtered := 0 |}.

(** [pd.read_csv(input_filename, chunksize=chunksize)]: the rows of the
    file, [chunksize] at a time; a file with a header and no row yields
    one empty chunk. *)
Fixpoint chunks_of (fuel : nat) (chunksize : nat) (rows : list row)
  : list (list row) :=
  match fuel with
  | O => []
  | S fuel =>
      firstn chunksize rows
      :: match skipn chunksize rows with
         | [] => []
         | rest => chunks_of fuel chunksize rest
         end
  end.

Definition read_csv (chunksize : Z) (rows : list row) : list (list row) :=
  chunks_of (S (length rows)) (Z.to_nat chunksize) rows.

Definition chunksize : Z := 10000.

(** The rows of a file, in order. *)
Definition rows_of (file : list line) : list row :=
  flat_map (fun l => match l with HeaderLine => [] | RowLine r => [r] end) file.

(** * The vocabulary of the statements *)

(** ** The batch loop *)

(** The row [main] appends for a kept sample. *)
Definition kept_row (params : vec8) (price : float) : list float :=
  [c0 params; c1 params; c2 params; c3 params;
   c4 params; c5 params; c6 params; c7 params; price].

(** Routines that answer NaN whatever they are given: an instance for
    runs in which the values of the integrand play no part. *)
Definition np_nan : NumPy :=
  {| np_sqrt := fun _ => Cx nan nan;
     np_exp := fun _ => Cx nan nan;
     np_log := fun _ => Cx nan nan;
     np_log_real := fun _ => nan;
     np_divide := fun _ _ => Cx nan nan |}.

(** An integrator whose run ends at once with the estimate [0.3] and
    the given status. *)
Definition fixed_integrator (s : ier) : Integrator :=
  fun _ _ _ _ _ => Done 0.3 1 s.

(** ** The chunked filter *)

(** The two strict bounds of [filter.py] on a row. *)
Definition within_bounds (r : row) : Prop :=
  ((0.6 <? moneyness r) = true /\ (moneyness r <? 1.4) = true
   /\ (0.05 <? initial_variance r) = true /\ (initial_variance r <? 0.5) = true)%float.

(** ** The characteristic function at [sigma = 0] *)

(** The argument [heston_char_function] hands to its last [np.exp]. *)
Definition heston_exponent (np : NumPy)
    (u t S0 r kappa theta sigma rho v0 : float) : complex :=
  let i := Cx 0 1 in
  let a := (kappa * theta)%float in
  let u := (cplx u - i)%cx in
  let d := np_sqrt np
    (pow2 (cplx (rho * sigma) * i * u - cplx kappa)
     + cplx (fpow2 sigma) * (i * u + pow2 u))%cx in
  let g := np_divide np (cplx kappa - cplx (rho * sigma) * i * u - d)%cx
             (cplx kappa - cplx (rho * sigma) * i * u + d)%cx in
  let C := (cplx r * i * u * cplx t
            + cplx (a / fpow2 sigma)
              * ((cplx kappa - cplx (rho * sigma) * i * u - d) * cplx t
                 - cplx 2
                   * np_log np
                       (np_divide np (cplx 1 - g * np_exp np (- d * cplx t))
                          (cplx 1 - g))))%cx in
  let D := np_divide np
             (np_divide np (cplx kappa - cplx (rho * sigma) * i * u - d)
                (cplx (fpow2 sigma))
              * (cplx 1 - np_exp np (- d * cplx t)))%cx
             (cplx 1 - g * np_exp np (- d * cplx t))%cx in
  (C + D * cplx v0 + i * u * cplx (np_log_real np S0))%cx.

(** A value that is NaN or an infinity. *)
Definition SFnonfinite (x : spec_float) : bool :=
  match x with S754_nan | S754_infinity _ => true | _ => false end.

(** Routines that hand a NaN on: the exponential of [nan + nan i] is
    [nan + nan i], and a quotient with that numerator has a NaN real
    part. *)
Definition nan_propagating (np : NumPy) : Prop :=
  np_exp np (Cx nan nan) = Cx nan nan
  /\ forall w, re (np_divide np (Cx nan nan) w) = nan.

(** An integrator whose estimate is NaN when every value of the
    integrand is. *)
Definition nan_summing (qp : Integrator) : Prop :=
  forall f a b limit epsabs epsrel,
    (forall x, f x = nan) ->
    q_result (run_quadpack f (qp a b limit epsabs epsrel)) = nan.

(** The one-panel midpoint rule, as an integrator. *)
Definition midpoint_integrator : Integrator :=
  fun a b _ _ _ =>
    Eval (0.5 * (a + b))%float
      (fun y => Done ((b - a) * y)%float infinity RoundoffDetected).

(** ** Binary64 numbers as scaled integers *)

Section ScaledIntegers.

#[local] Open Scope Z_scope.

(** Scaled powers of two. *)
Definition pow_offset : Z := 2200.
Definition two_pow (e : Z) : Z := 2 ^ (e + pow_offset).

(** The location of a remainder [R] in a step [T]. *)
Definition remainder_location (R T : Z) : location :=
  if R =? 0 then loc_Exact else loc_Inexact (2 * R ?= T).

Definition shr_inv (P k : Z) (mrs : shr_record) : Prop :=
  shr_m mrs = P / 2 ^ k
  /\ loc_of_shr_record mrs = remainder_location (P mod 2 ^ k) (2 ^ k).

(** What [binary_round_aux] does to an exact positive integer mantissa. *)
Record rounding (P E : Z) := {
  rnd_k : Z; rnd_q : Z; rnd_R : Z; rnd_M : Z;
  rnd_k_def : rnd_k = Z.max 0 (fexp prec emax (Zdigits2 P + E) - E);
  rnd_div : P = rnd_q * 2 ^ rnd_k + rnd_R;
  rnd_rem : 0 <= rnd_R < 2 ^ rnd_k;
  rnd_q_lt : 0 <= rnd_q < 2 ^ 53;
  rnd_q_ge : 0 < rnd_k -> -1074 < E + rnd_k -> 2 ^ 52 <= rnd_q;
  rnd_exp : -1074 <= E + rnd_k;
  rnd_M_cases : rnd_M = rnd_q \/ rnd_M = rnd_q + 1;
  rnd_down : rnd_M = rnd_q -> 2 * rnd_R <= 2 ^ rnd_k;
  rnd_up : rnd_M = rnd_q + 1 -> 2 ^ rnd_k <= 2 * rnd_R;
  rnd_exact : rnd_R = 0 -> rnd_M = rnd_q
}.

Definition rounded (s : bool) (E k M : Z) : spec_float :=
  if M =? 0 then S754_zero s
  else if M =? 2 ^ 53
       then (if E + k + 1 <=? 971
             then S754_finite s (Z.to_pos (2 ^ 52)) (E + k + 1)
             else S754_infinity s)
       else (if E + k <=? 971
             then S754_finite s (Z.to_pos M) (E + k)
             else S754_infinity s).

(** The magnitude of a finite number, in units of [2 ^ (- pow_offset)]. *)
Definition mag (x : spec_float) : Z :=
  match x with
  | S754_finite _ m e => Zpos m * two_pow e
  | _ => 0
  end.

Definition finite_or_zero (x : spec_float) : bool :=
  match x with
  | S754_finite _ _ _ | S754_zero _ => true
  | _ => false
  end.

Definition nn_le (x : float) (B : Z) : Prop :=
  (exists s, Prim2SF x = S754_zero s)
  \/ (exists m e, Prim2SF x = S754_finite false m e /\ Zpos m * two_pow e <= B).

Definition signed_between (s : bool) (x : float) (A B : Z) : Prop :=
  exists m e, Prim2SF x = S754_finite s m e /\ A <= Zpos m * two_pow e <= B.

End ScaledIntegers.

Definition unit_interval (x : float) : Prop :=
  (0 <=? x)%float = true /\ (x <? 1)%float = true.

(** The largest binary64 number below 1. *)
Definition xmax : float := 0x1.fffffffffffffp-1%float.

(** ** The sampler's draws and ranges *)

(** A draw of the unit cube: every coordinate in [[0, 1)]. *)
Definition unit_cube (u : vec8) : Prop :=
  unit_interval (c0 u) /\ unit_interval (c1 u) /\ unit_interval (c2 u)
  /\ unit_interval (c3 u) /\ unit_interval (c4 u) /\ unit_interval (c5 u)
  /\ unit_interval (c6 u) /\ unit_interval (c7 u).

(** The affine image [min + x * (max - min)] of a draw, coordinate by
    coordinate. *)
Definition scale_row (u : vec8) : vec8 :=
  Vec8 (0.6 + c0 u * (1.4 - 0.6)) (0.1 + c1 u * (1.4 - 0.1))
       (0.0 + c2 u * (0.10 - 0.0)) (-0.95 + c3 u * (0.0 - -0.95))
       (0.0 + c4 u * (2.0 - 0.0)) (0.0 + c5 u * (0.5 - 0.0))
       (0.0 + c6 u * (0.5 - 0.0)) (0.05 + c7 u * (0.5 - 0.05))%float.

(** The declared ranges, with the upper bound of the moneyness closed. *)
Definition in_ranges (p : vec8) : Prop :=
  (((0.6 <=? c0 p) = true /\ (c0 p <=? 1.4) = true)
   /\ ((0.1 <=? c1 p) = true /\ (c1 p <? 1.4) = true)
   /\ ((0.0 <=? c2 p) = true /\ (c2 p <? 0.10) = true)
   /\ ((-0.95 <=? c3 p) = true /\ (c3 p <? 0.0) = true)
   /\ ((0.0 <=? c4 p) = true /\ (c4 p <? 2.0) = true)
   /\ ((0.0 <=? c5 p) = true /\ (c5 p <? 0.5) = true)
   /\ ((0.0 <=? c6 p) = true /\ (c6 p <? 0.5) = true)
   /\ ((0.05 <=? c7 p) = true /\ (c7 p <? 0.5) = true))%float.

(** Two draws, the second with the largest first coordinate below 1. *)
Definition two_draws : list vec8 :=
  [Vec8 0 0 0 0 0 0 0 0; Vec8 xmax 0.5 0.5 0.5 0.5 0.5 0.5 0.5]%float.

(** ** The integrator's abscissae *)

(** For finite limits [scipy.integrate.quad] runs QUADPACK's adaptive
    routine, which evaluates the integrand only through its 21-point
    Gauss-Kronrod rule: first on the whole interval, then on the two
    halves of a panel it chooses to bisect, and so on, never holding
    more than [limit] panels.  On a panel [(a, b)] the rule computes
    the centre [centr], the half-length [hlgth], and evaluates at
    [centr] and at [centr - hlgth * xi], [centr + hlgth * xi] for each
    of its ten positive reference abscissae [xi]. *)

Section Panels.

#[local] Open Scope Z_scope.

Definition centr (p : float * float) : float := (0.5 * (fst p + snd p))%float.
Definition hlgth (p : float * float) : float := (0.5 * (snd p - fst p))%float.

(** The left or the right half of a panel. *)
Definition bisect (p : float * float) (right : bool) : float * float :=
  if right then (centr p, snd p) else (fst p, centr p).

(** The panel reached from [p] by the bisections of [path]. *)
Definition subinterval (path : list bool) (p : float * float) : float * float :=
  fold_left bisect path p.

(** The positive reference abscissae of the 21-point rule. *)
Definition xgk : list float :=
  [0.99565716302580808; 0.97390652851717172; 0.93015749135570823;
   0.86506336668898451; 0.78081772658641690; 0.67940956829902441;
   0.56275713466860468; 0.43339539412924719; 0.29439286270146020;
   0.14887433898163121]%float.

Definition dqk21_nodes (p : float * float) : list float :=
  centr p
  :: flat_map (fun xi => [centr p - hlgth p * xi; centr p + hlgth p * xi]%float) xgk.

(** An integrator that evaluates the integrand only at abscissae of the
    21-point rule, on panels at most [limit] bisections deep. *)
Definition gauss_kronrod (qp : Integrator) : Prop :=
  forall f a b limit epsabs epsrel,
    Forall (fun x => exists path,
                (length path <= Z.to_nat limit)%nat
                /\ In x (dqk21_nodes (subinterval path (a, b))))
      (q_nodes (run_quadpack f (qp a b limit epsabs epsrel))).

(** The magnitude of a number, as a scaled integer. *)
Definition val (x : float) : Z := mag (Prim2SF x).

Definition fpos (x : float) : Prop :=
  exists m e, Prim2SF x = S754_finite false m e.

Definition fzero (x : float) : Prop := exists s, Prim2SF x = S754_zero s.

(** A panel inside [[0, 100]] whose upper end, and whose lower end
    unless it is zero, is at least [2 ^ (- d)]. *)
Definition panel_ok (d : Z) (p : float * float) : Prop :=
  (fzero (fst p) \/ (fpos (fst p) /\ two_pow (- d) <= val (fst p)))
  /\ fpos (snd p)
  /\ two_pow (- d) <= val (snd p) <= val 100
  /\ val (fst p) <= val (snd p).

(** A reference abscissa that stays below [255/256]. *)
Definition inner_abscissa (xi : float) : bool :=
  match Prim2SF xi with
  | S754_finite false m e => 256 * (Zpos m * two_pow e) <=? 255 * 2 ^ pow_offset
  | _ => false
  end.

End Panels.

(** The abscissae at which [main] evaluates the integrand for one
    sample. *)
Definition sample_nodes (np : NumPy) (qp : Integrator) (params : vec8)
  : list float :=
  let '(Vec8 m tau r rho kappa theta sigma v0) := params in
  heston_call_price_nodes np qp main_S0 (main_S0 / m)
    tau r kappa theta sigma rho v0.

(** ** Integrators that show what they are handed *)

(** An integrator that answers [1] when it is called with the given
    limits, subdivision cap and tolerances, and [0] otherwise. *)
Definition expecting (a b : float) (limit : Z) (epsabs epsrel : float)
  : Integrator :=
  fun a' b' limit' epsabs' epsrel' =>
    if ((a' =? a) && (b' =? b))%float && (limit' =? limit)%Z
       && ((epsabs' =? epsabs) && (epsrel' =? epsrel))%float
    then Done 1 0 Converged
    else Done 0 0 Converged.


(** ** Further vocabulary *)

(** The estimate of the integral behind the price of one sample. *)
Definition sample_integral (np : NumPy) (qp : Integrator) (params : vec8) : float :=
  let '(Vec8 m tau r rho kappa theta sigma v0) := params in
  fst (quad qp
         (fun u => heston_integrand np u main_S0 (main_S0 / m)
                     tau r kappa theta sigma rho v0)
         0 100 100%Z 1e-8 1e-8)%float.

(** A table of three rows: one inside the bounds of [filter.py], one on
    the lower bound of the moneyness, one inside. *)
Definition three_rows : list row :=
  [ {| moneyness := 1.0; initial_variance := 0.1; other_columns := [0.25] |};
    {| moneyness := 0.6; initial_variance := 0.2; other_columns := [0.5] |};
    {| moneyness := 1.2; initial_variance := 0.3; other_columns := [0.75] |} ]%float.

(** The integrand of one record, with a sentinel in place of its values
    at frequencies that are not strictly positive. *)
Definition guarded_integrand (np : NumPy) (u : float) : float :=
  (if 0 <? u
   then heston_integrand np u 1 1 1 0.05 1.5 0.04 0.3 (-0.7) 0.04
   else 0)%float.

(** * Properties *)

(** ** Binary64 arithmetic: special values *)

Section FloatBasics.

#[local] Open Scope float_scope.

Lemma float_mul_comm (x y : float) : x * y = y * x.
Proof.
  apply Prim2SF_inj. rewrite !mul_spec. unfold SF64mul, SFmul.
  destruct (Prim2SF x) as [sx|sx| |sx mx ex], (Prim2SF y) as [sy|sy| |sy my ey];
    try reflexivity; rewrite ?(xorb_comm sx sy); try reflexivity.
  now rewrite Pos.mul_comm, Z.add_comm.
Qed.

Lemma float_sub_zero (x : float) : x - 0 = x.
Proof.
  apply Prim2SF_inj. rewrite sub_spec. unfold SF64sub, SFsub.
  change (Prim2SF 0) with (S754_zero false).
  destruct (Prim2SF x) as [[]|[]| |sx mx ex]; reflexivity.
Qed.

End FloatBasics.

(** ** Binary64 arithmetic: rounding to nearest *)

Ltac float_const := vm_compute; reflexivity.
Ltac zcheck :=
  first [apply Z.ltb_lt | apply Z.leb_le]; vm_compute; reflexivity.

Section Binary64.

#[local] Open Scope Z_scope.

Lemma two_pow_pos e : - pow_offset <= e -> 0 < two_pow e.
Proof. intros. unfold two_pow. apply Z.pow_pos_nonneg; lia. Qed.

Lemma two_pow_add e k : - pow_offset <= e -> 0 <= k -> two_pow (e + k) = 2 ^ k * two_pow e.
Proof.
  intros. unfold two_pow. replace (e + k + pow_offset) with (k + (e + pow_offset)) by lia.
  apply Z.pow_add_r; lia.
Qed.

Lemma two_pow_succ e : - pow_offset <= e -> two_pow (e + 1) = 2 * two_pow e.
Proof. intros. now rewrite two_pow_add by lia. Qed.

Lemma two_pow_le e e' : - pow_offset <= e -> e <= e' -> two_pow e' = 2 ^ (e' - e) * two_pow e.
Proof.
  intros. replace e' with (e + (e' - e)) at 1 by lia. apply two_pow_add; lia.
Qed.

Lemma pow2_pos k : 0 <= k -> 0 < 2 ^ k.
Proof. intros. apply Z.pow_pos_nonneg; lia. Qed.

Lemma pow2_ge2 k : 1 <= k -> 2 <= 2 ^ k.
Proof.
  intros. replace k with (1 + (k - 1)) by lia. rewrite Z.pow_add_r by lia.
  pose proof (pow2_pos (k - 1)). lia.
Qed.

(** digits *)
Lemma digits2_pos_bounds p :
  2 ^ (Zpos (digits2_pos p) - 1) <= Zpos p < 2 ^ Zpos (digits2_pos p).
Proof.
  induction p as [p IH|p IH|]; cbn [digits2_pos].
  - rewrite Pos2Z.inj_succ.
    replace (Z.succ (Z.pos (digits2_pos p)) - 1) with (1 + (Z.pos (digits2_pos p) - 1)) by lia.
    unfold Z.succ. rewrite (Z.add_comm _ 1).
    rewrite !Z.pow_add_r by lia. change (2^1) with 2. lia.
  - rewrite Pos2Z.inj_succ.
    replace (Z.succ (Z.pos (digits2_pos p)) - 1) with (1 + (Z.pos (digits2_pos p) - 1)) by lia.
    unfold Z.succ. rewrite (Z.add_comm _ 1).
    rewrite !Z.pow_add_r by lia. change (2^1) with 2. lia.
  - cbn. lia.
Qed.

Lemma iter_pos_nat {A} (f : A -> A) n x :
  SpecFloat.iter_pos f n x = Nat.iter (Pos.to_nat n) f x.
Proof.
  revert x. induction n as [n IH|n IH|]; intros x; cbn [SpecFloat.iter_pos].
  - rewrite !IH, Pos2Nat.inj_xI.
    replace (S (2 * Pos.to_nat n)) with (Pos.to_nat n + (Pos.to_nat n + 1))%nat by lia.
    rewrite !Nat.iter_add. reflexivity.
  - rewrite !IH, Pos2Nat.inj_xO.
    replace (2 * Pos.to_nat n)%nat with (Pos.to_nat n + Pos.to_nat n)%nat by lia.
    now rewrite Nat.iter_add.
  - reflexivity.
Qed.

Lemma shr_1_fields q r s :
  0 <= q ->
  shr_1 (Build_shr_record q r s)
  = Build_shr_record (q / 2) (Z.odd q) (orb r s).
Proof.
  intros Hq. rewrite <- Z.div2_div.
  destruct q as [|[p|p|]|p]; try lia; reflexivity.
Qed.

Lemma shr_1_inv P k mrs :
  0 <= P -> 0 <= k -> shr_inv P k mrs -> shr_inv P (k + 1) (shr_1 mrs).
Proof.
  intros HP Hk [Hm Hl].
  pose proof (pow2_pos k Hk) as HT.
  assert (HT1 : 2 ^ (k + 1) = 2 * 2 ^ k) by (rewrite Z.pow_add_r by lia; lia).
  pose proof (Z.div_mod P (2 ^ k) ltac:(lia)) as Hdm.
  pose proof (Z.mod_pos_bound P (2 ^ k) HT) as HR.
  set (q := P / 2 ^ k) in *. set (R := P mod 2 ^ k) in *.
  assert (Hq : 0 <= q) by (apply Z.div_pos; lia).
  assert (Hdiv : P / 2 ^ (k + 1) = q / 2).
  { rewrite HT1. rewrite Z.mul_comm. rewrite <- Z.div_div by lia. reflexivity. }
  pose proof (Z.div_mod q 2 ltac:(lia)) as Hq2.
  pose proof (Z.mod_pos_bound q 2 ltac:(lia)) as Hq2b.
  assert (Hmod : P mod 2 ^ (k + 1) = (q mod 2) * 2 ^ k + R).
  { rewrite HT1. symmetry. apply Z.mod_unique_pos with (q := q / 2); nia. }
  assert (Hodd : q mod 2 = if Z.odd q then 1 else 0).
  { rewrite Zmod_odd. reflexivity. }
  unfold shr_inv. rewrite Hdiv, Hmod, HT1, Hodd.
  destruct mrs as [m r s]. cbn [shr_m] in Hm. subst m.
  cbn [loc_of_shr_record] in Hl.
  assert (Hrs : orb r s = negb (R =? 0)).
  { unfold remainder_location in Hl.
    destruct (R =? 0); destruct r, s; try reflexivity; discriminate. }
  rewrite shr_1_fields by exact Hq. rewrite Hrs.
  cbn [shr_m loc_of_shr_record]. split; [reflexivity|].
  unfold remainder_location.
  destruct (Z.odd q); destruct (R =? 0) eqn:E; cbn [negb].
  - apply Z.eqb_eq in E.
    replace (1 * 2 ^ k + R =? 0) with false by (symmetry; apply Z.eqb_neq; lia).
    replace (2 * (1 * 2 ^ k + R) ?= 2 * 2 ^ k) with Eq; [reflexivity|].
    symmetry. apply Z.compare_eq_iff. lia.
  - apply Z.eqb_neq in E.
    replace (1 * 2 ^ k + R =? 0) with false by (symmetry; apply Z.eqb_neq; lia).
    replace (2 * (1 * 2 ^ k + R) ?= 2 * 2 ^ k) with Gt; [reflexivity|].
    symmetry. apply Z.compare_gt_iff. lia.
  - apply Z.eqb_eq in E.
    replace (0 * 2 ^ k + R =? 0) with true by (symmetry; apply Z.eqb_eq; lia).
    reflexivity.
  - apply Z.eqb_neq in E.
    replace (0 * 2 ^ k + R =? 0) with false by (symmetry; apply Z.eqb_neq; lia).
    replace (2 * (0 * 2 ^ k + R) ?= 2 * 2 ^ k) with Lt; [reflexivity|].
    symmetry. apply Z.compare_lt_iff. lia.
Qed.

Lemma shr_iter_inv P (n : nat) mrs :
  0 <= P -> shr_inv P 0 mrs -> shr_inv P (Z.of_nat n) (Nat.iter n shr_1 mrs).
Proof.
  intros HP H0. induction n as [|n IH].
  - exact H0.
  - rewrite Nat2Z.inj_succ. unfold Z.succ. cbn [Nat.iter].
    apply shr_1_inv; [lia | lia | exact IH].
Qed.

Lemma fexp_eq e : fexp prec emax e = Z.max (e - 53) (-1074).
Proof. reflexivity. Qed.

Lemma Zdigits2_bounds m :
  0 < m -> 0 < Zdigits2 m /\ 2 ^ (Zdigits2 m - 1) <= m < 2 ^ Zdigits2 m.
Proof.
  destruct m as [|p|p]; try lia. intros _. cbn [Zdigits2].
  split; [lia | apply digits2_pos_bounds].
Qed.

Lemma Zdigits2_le m d : 0 < m -> 0 <= d -> m < 2 ^ d -> Zdigits2 m <= d.
Proof.
  intros Hm Hd Hlt. destruct (Zdigits2_bounds m Hm) as [Hpos [Hlo _]].
  destruct (Z_le_gt_dec (Zdigits2 m) d) as [|Hgt]; [assumption|exfalso].
  assert (2 ^ d <= 2 ^ (Zdigits2 m - 1)) by (apply Z.pow_le_mono_r; lia).
  lia.
Qed.

Lemma Zdigits2_ge m d : 0 < m -> 2 ^ (d - 1) <= m -> d <= Zdigits2 m.
Proof.
  intros Hm Hle. destruct (Zdigits2_bounds m Hm) as [Hpos [_ Hhi]].
  destruct (Z_le_gt_dec d (Zdigits2 m)) as [|Hgt]; [assumption|exfalso].
  assert (2 ^ Zdigits2 m <= 2 ^ (d - 1)) by (apply Z.pow_le_mono_r; lia).
  lia.
Qed.

Lemma shr_fexp_spec m e :
  0 <= m ->
  let k := Z.max 0 (fexp prec emax (Zdigits2 m + e) - e) in
  fst (shr_fexp prec emax m e loc_Exact) = fst (shr_fexp prec emax m e loc_Exact) /\
  snd (shr_fexp prec emax m e loc_Exact) = e + k
  /\ shr_inv m k (fst (shr_fexp prec emax m e loc_Exact)).
Proof.
  intros Hm k. split; [reflexivity|].
  unfold shr_fexp, shr. cbn [shr_record_of_loc].
  assert (H0 : shr_inv m 0 (Build_shr_record m false false)).
  { split; cbn [shr_m loc_of_shr_record].
    - now rewrite Z.pow_0_r, Z.div_1_r.
    - now rewrite Z.pow_0_r, Z.mod_1_r. }
  subst k. destruct (fexp prec emax (Zdigits2 m + e) - e) as [|p|p]; cbn [fst snd].
  - rewrite Z.max_id. split; [lia | exact H0].
  - rewrite Z.max_r by lia. split; [reflexivity|].
    rewrite iter_pos_nat. rewrite <- (positive_nat_Z p).
    now apply shr_iter_inv.
  - rewrite Z.max_l by lia. split; [lia | exact H0].
Qed.

Lemma rne_spec q R T :
  0 <= R < T ->
  let M := round_nearest_even q (remainder_location R T) in
  (M = q \/ M = q + 1)
  /\ (M = q -> 2 * R <= T) /\ (M = q + 1 -> T <= 2 * R) /\ (R = 0 -> M = q).
Proof.
  intros HR M. subst M. unfold remainder_location.
  destruct (R =? 0) eqn:E.
  - apply Z.eqb_eq in E. cbn [round_nearest_even]. repeat split; intros; lia || auto.
  - apply Z.eqb_neq in E.
    destruct (2 * R ?= T) eqn:C; cbn [round_nearest_even].
    + apply Z.compare_eq_iff in C.
      destruct (Z.even q); repeat split; intros; try (lia || auto).
    + change (2 * R < T) in C. repeat split; intros; lia || auto.
    + apply Z.compare_gt_iff in C. repeat split; intros; lia || auto.
Qed.

Lemma binary_round_aux_spec s P E :
  0 < P ->
  exists r : rounding P E,
    binary_round_aux prec emax s P E loc_Exact
    = rounded s E (rnd_k P E r) (rnd_M P E r).
Proof.
  intros HP.
  set (k := Z.max 0 (fexp prec emax (Zdigits2 P + E) - E)).
  destruct (shr_fexp_spec P E ltac:(lia)) as (_ & He1 & [Hm1 Hl1]). fold k in He1, Hm1, Hl1.
  assert (Hk : 0 <= k) by (subst k; lia).
  pose proof (pow2_pos k Hk) as HT.
  pose proof (Z.div_mod P (2 ^ k) ltac:(lia)) as Hdm.
  pose proof (Z.mod_pos_bound P (2 ^ k) HT) as HR.
  set (q := P / 2 ^ k) in *. set (R := P mod 2 ^ k) in *.
  destruct (Zdigits2_bounds P HP) as [Hd [Hdlo Hdhi]].
  set (d := Zdigits2 P) in *.
  assert (Hq0 : 0 <= q) by (apply Z.div_pos; lia).
  assert (Hkd : d - 53 <= k) by (subst k; rewrite fexp_eq; lia).
  assert (Hexp : -1074 <= E + k) by (subst k; rewrite fexp_eq; lia).
  assert (Hqlt : q < 2 ^ 53).
  { apply Z.div_lt_upper_bound; [lia|].
    rewrite <- Z.pow_add_r by lia.
    eapply Z.lt_le_trans; [apply Hdhi|]. apply Z.pow_le_mono_r; lia. }
  assert (Hqge : 0 < k -> -1074 < E + k -> 2 ^ 52 <= q).
  { intros Hk0 Hn. assert (k = d - 53) by (subst k; rewrite fexp_eq in *; lia).
    apply Z.div_le_lower_bound; [lia|].
    rewrite <- Z.pow_add_r by lia.
    replace (k + 52) with (d - 1) by lia. exact Hdlo. }
  set (M := round_nearest_even q (remainder_location R (2 ^ k))).
  destruct (rne_spec q R (2 ^ k) HR) as (Hcases & Hdown & Hup & Hex). fold M in Hcases, Hdown, Hup, Hex.
  unshelve eexists (Build_rounding P E k q R M eq_refl _ HR _ Hqge Hexp Hcases Hdown Hup Hex).
  { lia. } { lia. }
  cbn [rnd_k rnd_M].
  unfold binary_round_aux.
  destruct (shr_fexp prec emax P E loc_Exact) as [mrs' e'] eqn:E1.
  cbn [fst snd] in He1, Hm1, Hl1. subst e'.
  rewrite Hm1, Hl1. fold M.
  assert (HM0 : 0 <= M <= 2 ^ 53) by lia.
  destruct (shr_fexp_spec M (E + k) ltac:(lia)) as (_ & He2 & [Hm2 _]).
  destruct (shr_fexp prec emax M (E + k) loc_Exact) as [mrs'' e''] eqn:E2.
  cbn [fst snd] in He2, Hm2. subst e''. rewrite Hm2. clear E1 E2 mrs' mrs'' Hm1 Hl1 Hm2.
  unfold rounded.
  destruct (Z.eqb_spec M 0) as [HMz|HMz].
  - rewrite HMz. cbn [Zdigits2]. rewrite fexp_eq.
    rewrite Z.max_l by lia. now rewrite Z.pow_0_r.
  - destruct (Z.eqb_spec M (2 ^ 53)) as [HMc|HMc].
    + rewrite HMc. change (Zdigits2 (2 ^ 53)) with 54. rewrite fexp_eq.
      replace (Z.max 0 (Z.max (54 + (E + k) - 53) (-1074) - (E + k))) with 1 by lia.
      change (2 ^ 53 / 2 ^ 1) with (2 ^ 52).
      replace (E + k + 1) with (E + k + 1) by lia.
      reflexivity.
    + assert (HMd : Zdigits2 M <= 53) by (apply Zdigits2_le; lia).
      rewrite fexp_eq. rewrite Z.max_l by lia.
      rewrite Z.pow_0_r, Z.div_1_r, Z.add_0_r.
      destruct M as [|m|m]; try lia. reflexivity.
Qed.

Lemma two_pow_mono e e' : - pow_offset <= e -> e <= e' -> two_pow e <= two_pow e'.
Proof.
  intros. rewrite (two_pow_le e e') by lia.
  pose proof (two_pow_pos e ltac:(lia)). pose proof (pow2_pos (e' - e) ltac:(lia)). nia.
Qed.

Lemma two_pow_lt_inv e e' : - pow_offset <= e -> - pow_offset <= e' -> two_pow e < two_pow e' -> e < e'.
Proof.
  intros He He' Hlt. destruct (Z_lt_le_dec e e') as [|Hle]; [assumption|exfalso].
  pose proof (two_pow_mono e' e He' Hle). lia.
Qed.

Lemma two_pow_double e e' : - pow_offset <= e -> e < e' -> 2 * two_pow e <= two_pow e'.
Proof.
  intros. rewrite <- two_pow_succ by lia. apply two_pow_mono; lia.
Qed.

Lemma bounded_facts m e :
  bounded prec emax m e = true ->
  -1074 <= e <= 971 /\ Zpos m < 2 ^ 53 /\ (-1074 < e -> 2 ^ 52 <= Zpos m).
Proof.
  unfold bounded, canonical_mantissa. intros H.
  apply andb_true_iff in H. destruct H as [Hc He].
  apply Z.eqb_eq in Hc. apply Z.leb_le in He. rewrite fexp_eq in Hc.
  change (emax - prec) with 971 in He.
  pose proof (digits2_pos_bounds m) as [Hlo Hhi].
  set (d := Zpos (digits2_pos m)) in *.
  assert (Hd : 0 < d) by (subst d; lia).
  split; [lia|]. split.
  - eapply Z.lt_le_trans; [exact Hhi|]. apply Z.pow_le_mono_r; lia.
  - intros Hn. assert (d = 53) by lia.
    replace 52 with (d - 1) by lia. exact Hlo.
Qed.

Section RoundBounds.

Variables (s : bool) (P E : Z) (mb : positive) (eb : Z).
Hypothesis HP : 0 < P.
Hypothesis HE : - pow_offset <= E.
Hypothesis Hb : bounded prec emax mb eb = true.

Lemma round_le :
  eb <= 900 ->
  2 * (P * two_pow E) < 2 * (Zpos mb * two_pow eb) + two_pow eb ->
  finite_or_zero (binary_round_aux prec emax s P E loc_Exact) = true
  /\ mag (binary_round_aux prec emax s P E loc_Exact) <= Zpos mb * two_pow eb.
Proof.
  set (B := Zpos mb). intros Heb Hlt.
  destruct (binary_round_aux_spec s P E HP) as [[k q R M Hk Hdiv Hrem Hq Hqge Hexp Hc Hdn Hup Hex] ->].
  cbn [rnd_k rnd_M].
  destruct (bounded_facts mb eb Hb) as (Hebr & HB & HBn). fold B in HB, HBn.
  assert (HBpos : 0 < B) by (subst B; lia).
  assert (Hk0 : 0 <= k) by lia.
  pose proof (pow2_pos k Hk0) as HT.
  pose proof (two_pow_pos E HE) as HGE.
  pose proof (two_pow_pos eb ltac:(unfold pow_offset; lia)) as HGb.
  assert (HG1 : two_pow (E + k) = 2 ^ k * two_pow E) by (apply two_pow_add; lia).
  pose proof (two_pow_pos (E + k) ltac:(lia)) as HG1pos.
  set (G1 := two_pow (E + k)) in *. set (GE := two_pow E) in *. set (Gb := two_pow eb) in *.
  set (T := 2 ^ k) in *.
  assert (HV : P * GE = q * G1 + R * GE) by (rewrite Hdiv, HG1; ring).
  assert (HRG : 0 <= R * GE) by (apply Z.mul_nonneg_nonneg; lia).
  assert (HqG : 0 <= q * G1) by (apply Z.mul_nonneg_nonneg; lia).
  assert (HBG : 0 < B * Gb) by (apply Z.mul_pos_pos; lia).
  assert (Hmain : M * G1 <= B * Gb).
  { destruct (Z.lt_trichotomy (E + k) eb) as [Hlt1|[Heq1|Hgt1]].
    - (* finer grid than the bound's *)
      pose proof (two_pow_double (E + k) eb ltac:(lia) Hlt1) as H2. fold G1 Gb in H2.
      assert (H52 : 2 ^ 52 <= B) by (apply HBn; lia).
      assert (H1 : M * G1 <= 2 ^ 53 * G1) by (apply Z.mul_le_mono_nonneg_r; lia).
      assert (H3 : 2 ^ 52 * Gb <= B * Gb) by (apply Z.mul_le_mono_nonneg_r; lia).
      lia.
    - (* same grid *)
      assert (HGeq : G1 = Gb) by (unfold G1, Gb; now rewrite Heq1).
      rewrite <- HGeq in *.
      destruct (Z_le_gt_dec M B) as [HMB|HMB];
        [apply Z.mul_le_mono_nonneg_r; lia | exfalso].
      destruct Hc as [->| ->].
      + assert ((B + 1) * G1 <= q * G1) by (apply Z.mul_le_mono_nonneg_r; lia). lia.
      + specialize (Hup eq_refl).
        assert (B * G1 <= q * G1) by (apply Z.mul_le_mono_nonneg_r; lia).
        assert (T * GE <= (2 * R) * GE) by (apply Z.mul_le_mono_nonneg_r; lia).
        lia.
    - (* coarser grid than the bound's *)
      pose proof (two_pow_double eb (E + k) ltac:(unfold pow_offset; lia) Hgt1) as H2. fold G1 Gb in H2.
      pose proof (two_pow_le eb (E + k) ltac:(unfold pow_offset; lia) ltac:(lia)) as Hc2. fold G1 Gb in Hc2.
      pose proof (pow2_pos (E + k - eb) ltac:(lia)) as Hcp.
      set (c := 2 ^ (E + k - eb)) in *.
      destruct (Z.eq_dec k 0) as [Hkz|Hkz].
      + assert (HR0 : R = 0) by (subst T; rewrite Hkz in Hrem; change (2 ^ 0) with 1 in Hrem; lia).
        specialize (Hex HR0). subst M.
        rewrite HV, HR0, Hc2 in Hlt.
        destruct (Z_le_gt_dec (q * c) B) as [Hok|Hbad].
        * rewrite Hc2. rewrite Z.mul_assoc. apply Z.mul_le_mono_nonneg_r; lia.
        * exfalso.
          assert ((B + 1) * Gb <= (q * c) * Gb) by (apply Z.mul_le_mono_nonneg_r; lia).
          lia.
      + exfalso. assert (H52 : 2 ^ 52 <= q) by (apply Hqge; lia).
        assert (2 ^ 52 * G1 <= q * G1) by (apply Z.mul_le_mono_nonneg_r; lia).
        assert ((B + 1) * Gb <= 2 ^ 53 * Gb) by (apply Z.mul_le_mono_nonneg_r; lia).
        lia. }
  unfold rounded.
  destruct (Z.eqb_spec M 0) as [HMz|HMz];
    [cbn [finite_or_zero mag]; split; [reflexivity|lia]|].
  assert (HM1 : 1 <= M) by lia.
  assert (HMG : G1 <= M * G1).
  { rewrite <- (Z.mul_1_l G1) at 1. apply Z.mul_le_mono_nonneg_r; lia. }
  assert (HB53 : B * Gb < two_pow (eb + 53)).
  { rewrite two_pow_add by (unfold pow_offset; lia). fold Gb.
    apply Z.mul_lt_mono_pos_r; lia. }
  destruct (Z.eqb_spec M (2 ^ 53)) as [HMc|HMc].
  - assert (HltG : G1 < Gb).
    { destruct (Z_lt_le_dec G1 Gb) as [|Hge]; [assumption|exfalso].
      assert (B * Gb <= B * G1) by (apply Z.mul_le_mono_nonneg_l; lia).
      assert (B * G1 < M * G1) by (apply Z.mul_lt_mono_pos_r; lia).
      lia. }
    apply two_pow_lt_inv in HltG; [|lia|unfold pow_offset; lia].
    replace (E + k + 1 <=? 971) with true by (symmetry; apply Z.leb_le; lia).
    cbn [finite_or_zero mag]. split; [reflexivity|].
    rewrite Z2Pos.id by lia. rewrite two_pow_succ by lia. fold G1.
    rewrite HMc in Hmain. lia.
  - assert (HltG : G1 < two_pow (eb + 53)) by lia.
    apply two_pow_lt_inv in HltG; [|lia|unfold pow_offset; lia].
    replace (E + k <=? 971) with true by (symmetry; apply Z.leb_le; lia).
    cbn [finite_or_zero mag]. split; [reflexivity|].
    rewrite Z2Pos.id by lia. fold G1. exact Hmain.
Qed.

Lemma round_ge :
  Zpos mb * two_pow eb <= P * two_pow E ->
  match binary_round_aux prec emax s P E loc_Exact with
  | S754_finite _ m e => Zpos mb * two_pow eb <= Zpos m * two_pow e
  | S754_infinity _ => True
  | _ => False
  end.
Proof.
  set (B := Zpos mb). intros Hle.
  destruct (binary_round_aux_spec s P E HP) as [[k q R M Hk Hdiv Hrem Hq Hqge Hexp Hc Hdn Hup Hex] ->].
  cbn [rnd_k rnd_M].
  destruct (bounded_facts mb eb Hb) as (Hebr & HB & HBn). fold B in HB, HBn.
  assert (Hk0 : 0 <= k) by lia.
  pose proof (pow2_pos k Hk0) as HT.
  pose proof (two_pow_pos E HE) as HGE.
  pose proof (two_pow_pos eb ltac:(unfold pow_offset; lia)) as HGb.
  assert (HG1 : two_pow (E + k) = 2 ^ k * two_pow E) by (apply two_pow_add; lia).
  pose proof (two_pow_pos (E + k) ltac:(lia)) as HG1pos.
  set (G1 := two_pow (E + k)) in *. set (GE := two_pow E) in *. set (Gb := two_pow eb) in *.
  set (T := 2 ^ k) in *.
  assert (HV : P * GE = q * G1 + R * GE) by (rewrite Hdiv, HG1; ring).
  assert (HBpos : 0 < B) by (subst B; lia).
  assert (HBG : 0 < B * Gb) by (apply Z.mul_pos_pos; lia).
  assert (HRG1 : R * GE < G1) by (rewrite HG1; apply Z.mul_lt_mono_pos_r; lia).
  assert (HqM : q * G1 <= M * G1) by (apply Z.mul_le_mono_nonneg_r; lia).
  assert (Hmain : B * Gb <= M * G1).
  { destruct (Z_le_gt_dec (E + k) eb) as [Hle1|Hgt1].
    - pose proof (two_pow_le (E + k) eb ltac:(lia) Hle1) as Hc2. fold G1 Gb in Hc2.
      pose proof (pow2_pos (eb - (E + k)) ltac:(lia)) as Hcp.
      set (c := 2 ^ (eb - (E + k))) in *.
      assert (HBc : B * c <= q).
      { destruct (Z_le_gt_dec (B * c) q) as [|Hbad]; [assumption|exfalso].
        assert ((q + 1) * G1 <= (B * c) * G1) by (apply Z.mul_le_mono_nonneg_r; lia).
        rewrite Hc2, Z.mul_assoc in Hle. lia. }
      rewrite Hc2, Z.mul_assoc.
      etransitivity; [|exact HqM]. apply Z.mul_le_mono_nonneg_r; lia.
    - pose proof (two_pow_double eb (E + k) ltac:(unfold pow_offset; lia) ltac:(lia)) as H2. fold G1 Gb in H2.
      destruct (Z.eq_dec k 0) as [Hkz|Hkz].
      + assert (HR0 : R = 0) by (subst T; rewrite Hkz in Hrem; change (2 ^ 0) with 1 in Hrem; lia).
        specialize (Hex HR0). subst M R. lia.
      + assert (H52 : 2 ^ 52 <= q) by (apply Hqge; lia).
        assert (2 ^ 52 * G1 <= q * G1) by (apply Z.mul_le_mono_nonneg_r; lia).
        assert (B * Gb <= 2 ^ 53 * Gb) by (apply Z.mul_le_mono_nonneg_r; lia).
        lia. }
  assert (HM1 : 1 <= M).
  { destruct (Z_le_gt_dec 1 M) as [|Hbad]; [assumption|exfalso].
    assert (M * G1 <= 0 * G1) by (apply Z.mul_le_mono_nonneg_r; lia). lia. }
  unfold rounded.
  destruct (Z.eqb_spec M 0) as [HMz|HMz]; [lia|].
  destruct (Z.eqb_spec M (2 ^ 53)) as [HMc|HMc].
  - destruct (E + k + 1 <=? 971); [|exact I].
    rewrite Z2Pos.id by lia. rewrite two_pow_succ by lia. fold G1.
    rewrite HMc in Hmain. lia.
  - destruct (E + k <=? 971); [|exact I].
    rewrite Z2Pos.id by lia. fold G1. exact Hmain.
Qed.

End RoundBounds.

Lemma round_sign s P E :
  0 < P ->
  match binary_round_aux prec emax s P E loc_Exact with
  | S754_zero s' | S754_infinity s' | S754_finite s' _ _ => s' = s
  | S754_nan => False
  end.
Proof.
  intros HP. destruct (binary_round_aux_spec s P E HP) as [r ->].
  unfold rounded.
  repeat match goal with |- context [if ?c then _ else _] => destruct c end;
    reflexivity.
Qed.

(** Comparison of valid finite numbers of the same sign. *)
Lemma SFcompare_pos m1 e1 m2 e2 :
  bounded prec emax m1 e1 = true -> bounded prec emax m2 e2 = true ->
  SFcompare (S754_finite false m1 e1) (S754_finite false m2 e2)
  = Some (Zpos m1 * two_pow e1 ?= Zpos m2 * two_pow e2).
Proof.
  intros H1 H2.
  destruct (bounded_facts m1 e1 H1) as (He1 & Hm1 & Hn1).
  destruct (bounded_facts m2 e2 H2) as (He2 & Hm2 & Hn2).
  pose proof (two_pow_pos e1 ltac:(unfold pow_offset; lia)) as HG1.
  pose proof (two_pow_pos e2 ltac:(unfold pow_offset; lia)) as HG2.
  unfold SFcompare. f_equal.
  destruct (Z.compare_spec e1 e2) as [Heq|Hlt|Hgt].
  - subst e2. rewrite Pos.compare_cont_spec. cbn [Pos.switch_Eq].
    change (Pos.compare m1 m2) with (Z.compare (Zpos m1) (Zpos m2)).
    destruct (Z.compare_spec (Zpos m1) (Zpos m2)) as [E|E|E]; symmetry.
    + apply Z.compare_eq_iff. congruence.
    + apply Z.compare_lt_iff. nia.
    + apply Z.compare_gt_iff. nia.
  - symmetry. apply Z.compare_lt_iff.
    pose proof (two_pow_double e1 e2 ltac:(unfold pow_offset; lia) Hlt).
    assert (2 ^ 52 <= Zpos m2) by (apply Hn2; lia). nia.
  - symmetry. apply Z.compare_gt_iff.
    pose proof (two_pow_double e2 e1 ltac:(unfold pow_offset; lia) Hgt).
    assert (2 ^ 52 <= Zpos m1) by (apply Hn1; lia). nia.
Qed.

Lemma SFcompare_neg m1 e1 m2 e2 :
  bounded prec emax m1 e1 = true -> bounded prec emax m2 e2 = true ->
  SFcompare (S754_finite true m1 e1) (S754_finite true m2 e2)
  = Some (Zpos m2 * two_pow e2 ?= Zpos m1 * two_pow e1).
Proof.
  intros H1 H2.
  pose proof (SFcompare_pos m1 e1 m2 e2 H1 H2) as Hpos.
  rewrite (Z.compare_antisym (Zpos m1 * two_pow e1)).
  set (c := Zpos m1 * two_pow e1 ?= Zpos m2 * two_pow e2) in *.
  unfold SFcompare in Hpos |- *. injection Hpos as Hpos.
  f_equal. rewrite <- Hpos.
  destruct (e1 ?= e2); reflexivity.
Qed.

Lemma shl_align_value m e e' :
  - pow_offset <= e -> - pow_offset <= e' ->
  - pow_offset <= snd (shl_align m e e') <= e
  /\ Zpos (fst (shl_align m e e')) * two_pow (snd (shl_align m e e')) = Zpos m * two_pow e.
Proof.
  intros He He'. unfold shl_align.
  destruct (e' - e) as [|d|d] eqn:Hd; cbn [fst snd].
  - split; [lia | reflexivity].
  - split; [lia | reflexivity].
  - assert (e = e' + Zpos d) by lia. subst e. split; [lia|].
    rewrite two_pow_add by lia.
    change (Pos.iter xO m d) with (shift_pos d m).
    rewrite shift_pos_correct, Zpower_pos_nat, Zpower_nat_Z, positive_nat_Z.
    ring.
Qed.

Lemma valid_finite x s m e :
  Prim2SF x = S754_finite s m e -> bounded prec emax m e = true.
Proof.
  intros H. pose proof (Prim2SF_valid x) as Hv. now rewrite H in Hv.
Qed.

(** ** Non-negative numbers below a bound, and numbers of one sign
    between two bounds *)

Lemma two_pow_mul a b : - pow_offset <= a -> - pow_offset <= b -> - pow_offset <= a + b ->
  two_pow (a + b) * 2 ^ pow_offset = two_pow a * two_pow b.
Proof.
  unfold two_pow, pow_offset. intros. rewrite <- !Z.pow_add_r by lia. f_equal. lia.
Qed.

Lemma Prim2SF_one : Prim2SF 1 = S754_finite false 4503599627370496 (-52).
Proof. reflexivity. Qed.

Lemma Prim2SF_zero : Prim2SF 0 = S754_zero false.
Proof. reflexivity. Qed.

(** The draws: [0 <= x < 1]. *)
Lemma unit_draw (x : float) :
  (0 <=? x)%float = true -> (x <? 1)%float = true ->
  nn_le x ((2 ^ 53 - 1) * two_pow (-53)).
Proof.
  rewrite FloatAxioms.leb_spec, FloatAxioms.ltb_spec, Prim2SF_zero, Prim2SF_one.
  intros H0 H1.
  destruct (Prim2SF x) as [s|[]| |[] m e] eqn:Hx; try discriminate.
  - left. eauto.
  - right. exists m, e. split; [exact Hx|].
    pose proof (valid_finite x _ _ _ Hx) as Hv.
    unfold SFltb in H1.
    rewrite (SFcompare_pos m e 4503599627370496 (-52) Hv eq_refl) in H1.
    destruct (Z.compare_spec (Zpos m * two_pow e) (4503599627370496 * two_pow (-52))) as [|Hlt|];
      try discriminate.
    destruct (bounded_facts m e Hv) as (He & Hm & Hn).
    change 4503599627370496 with (2 ^ 52) in Hlt.
    replace (-52) with (-53 + 1) in Hlt by lia.
    rewrite two_pow_succ in Hlt by (unfold pow_offset; lia).
    pose proof (two_pow_pos (-53) ltac:(unfold pow_offset; lia)) as HG.
    destruct (Z_le_gt_dec e (-53)) as [Hle|Hgt].
    + pose proof (two_pow_mono e (-53) ltac:(unfold pow_offset; lia) Hle).
      pose proof (two_pow_pos e ltac:(unfold pow_offset; lia)). nia.
    + rewrite (two_pow_le (-53) e) in * by (unfold pow_offset; lia).
      pose proof (pow2_pos (e - -53) ltac:(lia)).
      set (c := 2 ^ (e - -53)) in *.
      assert (Zpos m * c < 2 ^ 53) by nia. nia.
Qed.

Section Mul.

Variables (w ymax : float) (mw mb : positive) (ew eb : Z).
Hypothesis Hw : Prim2SF w = S754_finite false mw ew.
Hypothesis Hymax : Prim2SF ymax = S754_finite false mb eb.
Hypothesis Heb : eb <= 900.

Lemma mul_nn_le (x : float) (Bx : Z) :
  nn_le x Bx ->
  2 * (Bx * (Zpos mw * two_pow ew)) < (2 * (Zpos mb * two_pow eb) + two_pow eb) * 2 ^ pow_offset ->
  nn_le (x * w)%float (Zpos mb * two_pow eb).
Proof.
  intros Hx Hchk. unfold nn_le.
  rewrite FloatAxioms.mul_spec, Hw. unfold SF64mul, SFmul.
  destruct Hx as [[s Hx]|(m & e & Hx & Hle)]; rewrite Hx.
  - left. eauto.
  - pose proof (valid_finite w _ _ _ Hw) as Hvw.
    pose proof (valid_finite ymax _ _ _ Hymax) as Hvb.
    pose proof (valid_finite x _ _ _ Hx) as Hvx.
    destruct (bounded_facts mw ew Hvw) as (Hew & _ & _).
    destruct (bounded_facts m e Hvx) as (He & _ & _).
    change (xorb false false) with false.
    set (P := Zpos (m * mw)). set (E := e + ew).
    assert (HP : 0 < P) by (subst P; lia).
    assert (HE : - pow_offset <= E) by (unfold pow_offset; subst E; lia).
    pose proof (round_sign false P E HP) as Hs.
    assert (HSC : 0 < 2 ^ pow_offset) by (apply pow2_pos; unfold pow_offset; lia).
    assert (Hlt : 2 * (P * two_pow E) < 2 * (Zpos mb * two_pow eb) + two_pow eb).
    { apply (Z.mul_lt_mono_pos_r (2 ^ pow_offset)); [exact HSC|].
      eapply Z.le_lt_trans; [|exact Hchk].
      replace (2 * (P * two_pow E) * 2 ^ pow_offset) with (2 * (P * (two_pow E * 2 ^ pow_offset))) by ring.
      subst E. rewrite two_pow_mul by (unfold pow_offset; lia).
      subst P. rewrite Pos2Z.inj_mul.
      pose proof (two_pow_pos ew ltac:(unfold pow_offset; lia)).
      pose proof (two_pow_pos e ltac:(unfold pow_offset; lia)).
      assert (0 < Zpos mw * two_pow ew) by nia.
      replace (2 * (Z.pos m * Z.pos mw * (two_pow e * two_pow ew)))
        with (2 * ((Z.pos m * two_pow e) * (Z.pos mw * two_pow ew))) by ring.
      nia. }
    destruct (round_le false P E mb eb HP HE Hvb Heb Hlt) as [Hfin Hmag].
    destruct (binary_round_aux prec emax false P E loc_Exact) as [s|s| |s m' e'];
      try discriminate; subst s.
    + left. eauto.
    + right. exists m', e'. split; [reflexivity | exact Hmag].
Qed.

End Mul.

Lemma shl_align_snd m e e' : e' <= e -> snd (shl_align m e e') = e'.
Proof.
  intros H. unfold shl_align.
  destruct (e' - e) as [|d|d] eqn:Hd; cbn [snd]; lia.
Qed.

Section BinaryRound.

Variables (s : bool) (p : positive) (ez : Z) (mb : positive) (eb : Z).
Hypothesis Hez : -1074 <= ez.
Hypothesis Hb : bounded prec emax mb eb = true.

Lemma binary_round_eq :
  exists P E,
    0 < P /\ - pow_offset <= E /\ P * two_pow E = Zpos p * two_pow ez
    /\ binary_round prec emax s p ez = binary_round_aux prec emax s P E loc_Exact.
Proof.
  unfold binary_round.
  destruct (shl_align_value p ez (fexp prec emax (Zpos (digits2_pos p) + ez)))
    as [Hs Hv]; [unfold pow_offset; lia | rewrite fexp_eq; unfold pow_offset; lia |].
  destruct (shl_align p ez (fexp prec emax (Zpos (digits2_pos p) + ez))) as [mz e'].
  cbn [fst snd] in Hs, Hv.
  exists (Zpos mz), e'. repeat split; lia || exact Hv.
Qed.

Lemma binary_round_le :
  eb <= 900 ->
  2 * (Zpos p * two_pow ez) < 2 * (Zpos mb * two_pow eb) + two_pow eb ->
  finite_or_zero (binary_round prec emax s p ez) = true
  /\ mag (binary_round prec emax s p ez) <= Zpos mb * two_pow eb.
Proof.
  intros Heb Hlt. destruct binary_round_eq as (P & E & HP & HE & HV & ->).
  apply round_le; try assumption. now rewrite HV.
Qed.

Lemma binary_round_ge :
  Zpos mb * two_pow eb <= Zpos p * two_pow ez ->
  match binary_round prec emax s p ez with
  | S754_finite _ m e => Zpos mb * two_pow eb <= Zpos m * two_pow e
  | S754_infinity _ => True
  | _ => False
  end.
Proof.
  intros Hle. destruct binary_round_eq as (P & E & HP & HE & HV & ->).
  apply round_ge; try assumption. now rewrite HV.
Qed.

Lemma binary_round_sign :
  match binary_round prec emax s p ez with
  | S754_zero s' | S754_infinity s' | S754_finite s' _ _ => s' = s
  | S754_nan => False
  end.
Proof.
  destruct binary_round_eq as (P & E & HP & HE & HV & ->).
  now apply round_sign.
Qed.

End BinaryRound.

(** The aligned mantissas of an addition. *)
Lemma aligned m e ez :
  -1074 <= ez -> ez <= e ->
  Zpos (fst (shl_align m e ez)) * two_pow ez = Zpos m * two_pow e.
Proof.
  intros H1 H2.
  destruct (shl_align_value m e ez) as [_ Hv]; [unfold pow_offset; lia | unfold pow_offset; lia |].
  now rewrite shl_align_snd in Hv by exact H2.
Qed.

Lemma add_zero_nn_le (y : float) (B : Z) :
  nn_le y B -> nn_le (0 + y)%float B.
Proof.
  intros Hy. unfold nn_le.
  rewrite FloatAxioms.add_spec, Prim2SF_zero. unfold SF64add, SFadd.
  destruct Hy as [[s Hy]|(m & e & Hy & Hle)]; rewrite Hy.
  - left. destruct s; eauto.
  - right. eauto.
Qed.

Section AddPos.

Variables (lo zmax : float) (ml mz : positive) (el ez : Z).
Hypothesis Hlo : Prim2SF lo = S754_finite false ml el.
Hypothesis Hzmax : Prim2SF zmax = S754_finite false mz ez.
Hypothesis Hez : ez <= 900.

Lemma add_pos_between (y : float) (By : Z) :
  nn_le y By ->
  Zpos ml * two_pow el <= Zpos mz * two_pow ez ->
  2 * (Zpos ml * two_pow el + By) < 2 * (Zpos mz * two_pow ez) + two_pow ez ->
  signed_between false (lo + y)%float (Zpos ml * two_pow el) (Zpos mz * two_pow ez).
Proof.
  intros Hy Hle0 Hchk. unfold signed_between.
  rewrite FloatAxioms.add_spec, Hlo. unfold SF64add, SFadd.
  destruct Hy as [[s Hy]|(m & e & Hy & Hle)]; rewrite Hy.
  - exists ml, el. split; [reflexivity | lia].
  - pose proof (valid_finite lo _ _ _ Hlo) as Hvl.
    pose proof (valid_finite zmax _ _ _ Hzmax) as Hvz.
    pose proof (valid_finite y _ _ _ Hy) as Hvy.
    destruct (bounded_facts ml el Hvl) as (Hel & _ & _).
    destruct (bounded_facts m e Hvy) as (He & _ & _).
    set (e0 := Z.min el e).
    assert (He0 : -1074 <= e0) by (subst e0; lia).
    pose proof (aligned ml el e0 He0 ltac:(subst e0; lia)) as Ha.
    pose proof (aligned m e e0 He0 ltac:(subst e0; lia)) as Hb.
    cbn [cond_Zopp].
    set (a := fst (shl_align ml el e0)) in *.
    set (b := fst (shl_align m e e0)) in *.
    change (Z.pos a + Z.pos b) with (Zpos (a + b)).
    cbn [binary_normalize].
    assert (HV : Zpos (a + b) * two_pow e0 = Zpos ml * two_pow el + Zpos m * two_pow e).
    { rewrite Pos2Z.inj_add. lia. }
    assert (Hmy : 0 < Zpos m * two_pow e).
    { pose proof (two_pow_pos e ltac:(unfold pow_offset; lia)). nia. }
    pose proof (binary_round_sign false (a + b) e0 He0) as Hs.
    pose proof (binary_round_ge false (a + b) e0 ml el He0 Hvl ltac:(lia)) as Hge.
    destruct (binary_round_le false (a + b) e0 mz ez He0 Hvz Hez ltac:(lia)) as [Hfin Hmag].
    destruct (binary_round prec emax false (a + b) e0) as [s|s| |s m' e'];
      try discriminate; try contradiction. subst s.
    exists m', e'. split; [reflexivity|]. cbn [mag] in Hmag. lia.
Qed.

End AddPos.

Section AddNeg.

Variables (lo : float) (ml : positive) (el : Z).
Hypothesis Hlo : Prim2SF lo = S754_finite true ml el.
Hypothesis Hel : el <= 900.

Lemma add_neg_between (y : float) (By : Z) :
  nn_le y By ->
  By < Zpos ml * two_pow el ->
  signed_between true (lo + y)%float (two_pow (-1074)) (Zpos ml * two_pow el).
Proof.
  intros Hy Hlt. unfold signed_between.
  pose proof (valid_finite lo _ _ _ Hlo) as Hvl.
  destruct (bounded_facts ml el Hvl) as (Hel' & _ & _).
  pose proof (two_pow_mono (-1074) el ltac:(unfold pow_offset; lia) ltac:(lia)) as HGl.
  pose proof (two_pow_pos (-1074) ltac:(unfold pow_offset; lia)) as HGm.
  rewrite FloatAxioms.add_spec, Hlo. unfold SF64add, SFadd.
  destruct Hy as [[s Hy]|(m & e & Hy & Hle)]; rewrite Hy.
  - exists ml, el. split; [reflexivity | nia].
  - pose proof (valid_finite y _ _ _ Hy) as Hvy.
    destruct (bounded_facts m e Hvy) as (He & _ & _).
    set (e0 := Z.min el e).
    assert (He0 : -1074 <= e0) by (subst e0; lia).
    pose proof (aligned ml el e0 He0 ltac:(subst e0; lia)) as Ha.
    pose proof (aligned m e e0 He0 ltac:(subst e0; lia)) as Hb.
    cbn [cond_Zopp].
    set (a := fst (shl_align ml el e0)) in *.
    set (b := fst (shl_align m e e0)) in *.
    pose proof (two_pow_pos e0 ltac:(unfold pow_offset; lia)) as HG0.
    pose proof (two_pow_mono (-1074) e0 ltac:(unfold pow_offset; lia) ltac:(lia)) as HG0m.
    assert (Hab : Zpos b < Zpos a) by nia.
    destruct (- Z.pos a + Z.pos b) as [|p|p] eqn:Hsum; try lia.
    cbn [binary_normalize].
    assert (HV : Zpos p * two_pow e0 = Zpos ml * two_pow el - Zpos m * two_pow e).
    { replace (Zpos p) with (Zpos a - Zpos b) by lia. lia. }
    assert (Hmy : 0 < Zpos m * two_pow e).
    { pose proof (two_pow_pos e ltac:(unfold pow_offset; lia)). nia. }
    assert (Hone : bounded prec emax 1 (-1074) = true) by reflexivity.
    pose proof (binary_round_sign true p e0 He0) as Hs.
    pose proof (binary_round_ge true p e0 1 (-1074) He0 Hone ltac:(nia)) as Hge.
    destruct (binary_round_le true p e0 ml el He0 Hvl Hel
                ltac:(pose proof (two_pow_pos el ltac:(unfold pow_offset; lia)); nia))
      as [Hfin Hmag].
    destruct (binary_round prec emax true p e0) as [s|s| |s m' e'];
      try discriminate; try contradiction. subst s.
    exists m', e'. split; [reflexivity|]. cbn [mag] in Hmag. lia.
Qed.

End AddNeg.

(** ** From bounds on magnitudes to comparisons *)

Lemma nn_le_cmp (z hi : float) (B : Z) (mh : positive) (eh : Z) :
  nn_le z B ->
  Prim2SF hi = S754_finite false mh eh ->
  (0 <=? z)%float = true
  /\ (B < Zpos mh * two_pow eh -> (z <? hi)%float = true)
  /\ (B <= Zpos mh * two_pow eh -> (z <=? hi)%float = true).
Proof.
  intros Hz Hhi.
  rewrite FloatAxioms.leb_spec, FloatAxioms.ltb_spec, FloatAxioms.leb_spec, Prim2SF_zero, Hhi.
  pose proof (valid_finite hi _ _ _ Hhi) as Hvh.
  destruct Hz as [[s Hz]|(m & e & Hz & Hle)]; rewrite Hz.
  - repeat split; reflexivity.
  - pose proof (valid_finite z _ _ _ Hz) as Hvz.
    unfold SFltb, SFleb. rewrite (SFcompare_pos m e mh eh Hvz Hvh).
    split; [reflexivity|]. split; intros HB.
    + replace (Zpos m * two_pow e ?= Zpos mh * two_pow eh) with Lt; [reflexivity|].
      symmetry. apply Z.compare_lt_iff. lia.
    + destruct (Z.compare_spec (Zpos m * two_pow e) (Zpos mh * two_pow eh)); try reflexivity. lia.
Qed.

Lemma between_pos_cmp (z lo hi : float) (A B : Z) (ml mh : positive) (el eh : Z) :
  signed_between false z A B ->
  Prim2SF lo = S754_finite false ml el ->
  Prim2SF hi = S754_finite false mh eh ->
  Zpos ml * two_pow el <= A ->
  (lo <=? z)%float = true
  /\ (B < Zpos mh * two_pow eh -> (z <? hi)%float = true)
  /\ (B <= Zpos mh * two_pow eh -> (z <=? hi)%float = true).
Proof.
  intros (m & e & Hz & HA & HB) Hlo Hhi Hl.
  rewrite FloatAxioms.leb_spec, FloatAxioms.ltb_spec, FloatAxioms.leb_spec, Hlo, Hhi, Hz.
  pose proof (valid_finite hi _ _ _ Hhi) as Hvh.
  pose proof (valid_finite lo _ _ _ Hlo) as Hvl.
  pose proof (valid_finite z _ _ _ Hz) as Hvz.
  unfold SFltb, SFleb.
  rewrite (SFcompare_pos m e mh eh Hvz Hvh), (SFcompare_pos ml el m e Hvl Hvz).
  split; [|split].
  - destruct (Z.compare_spec (Zpos ml * two_pow el) (Zpos m * two_pow e)); try reflexivity. lia.
  - intros H. replace (Zpos m * two_pow e ?= Zpos mh * two_pow eh) with Lt; [reflexivity|].
    symmetry. apply Z.compare_lt_iff. lia.
  - intros H.
    destruct (Z.compare_spec (Zpos m * two_pow e) (Zpos mh * two_pow eh)); try reflexivity. lia.
Qed.

Lemma between_neg_cmp (z lo : float) (A B : Z) (ml : positive) (el : Z) :
  signed_between true z A B ->
  Prim2SF lo = S754_finite true ml el ->
  B <= Zpos ml * two_pow el ->
  (lo <=? z)%float = true /\ (z <? 0)%float = true.
Proof.
  intros (m & e & Hz & HA & HB) Hlo Hl.
  rewrite FloatAxioms.leb_spec, FloatAxioms.ltb_spec, Prim2SF_zero, Hlo, Hz.
  pose proof (valid_finite lo _ _ _ Hlo) as Hvl.
  pose proof (valid_finite z _ _ _ Hz) as Hvz.
  unfold SFltb, SFleb.
  rewrite (SFcompare_neg ml el m e Hvl Hvz).
  split; [|reflexivity].
  destruct (Z.compare_spec (Zpos m * two_pow e) (Zpos ml * two_pow el)); try reflexivity. lia.
Qed.

(** ** The eight affine maps of the sampler *)

Lemma scale_from_zero (hi_lo hi : float) (mw mb mh : positive) (ew eb eh : Z) :
  Prim2SF hi_lo = S754_finite false mw ew ->
  Prim2SF (xmax * hi_lo)%float = S754_finite false mb eb ->
  Prim2SF hi = S754_finite false mh eh ->
  eb <= 900 ->
  2 * ((2 ^ 53 - 1) * two_pow (-53) * (Zpos mw * two_pow ew))
  < (2 * (Zpos mb * two_pow eb) + two_pow eb) * 2 ^ pow_offset ->
  Zpos mb * two_pow eb < Zpos mh * two_pow eh ->
  forall x, unit_interval x ->
    (0 <=? 0 + x * hi_lo)%float = true /\ (0 + x * hi_lo <? hi)%float = true.
Proof.
  intros Hw Hy Hhi Heb Hchk Hlt x [H0 H1].
  pose proof (unit_draw x H0 H1) as Hx.
  pose proof (mul_nn_le hi_lo _ mw mb ew eb Hw Hy Heb x _ Hx Hchk) as Hm.
  apply add_zero_nn_le in Hm.
  destruct (nn_le_cmp _ hi _ mh eh Hm Hhi) as (Hge & Hlt' & _).
  split; [exact Hge | now apply Hlt'].
Qed.

Lemma scale_from_pos (lo hi_lo hi : float)
    (mw mb ml mz mh : positive) (ew eb el ez eh : Z) :
  Prim2SF hi_lo = S754_finite false mw ew ->
  Prim2SF (xmax * hi_lo)%float = S754_finite false mb eb ->
  Prim2SF lo = S754_finite false ml el ->
  Prim2SF (lo + xmax * hi_lo)%float = S754_finite false mz ez ->
  Prim2SF hi = S754_finite false mh eh ->
  eb <= 900 -> ez <= 900 ->
  2 * ((2 ^ 53 - 1) * two_pow (-53) * (Zpos mw * two_pow ew))
  < (2 * (Zpos mb * two_pow eb) + two_pow eb) * 2 ^ pow_offset ->
  Zpos ml * two_pow el <= Zpos mz * two_pow ez ->
  2 * (Zpos ml * two_pow el + Zpos mb * two_pow eb) < 2 * (Zpos mz * two_pow ez) + two_pow ez ->
  forall x, unit_interval x ->
    (lo <=? lo + x * hi_lo)%float = true
    /\ (Zpos mz * two_pow ez < Zpos mh * two_pow eh -> (lo + x * hi_lo <? hi)%float = true)
    /\ (Zpos mz * two_pow ez <= Zpos mh * two_pow eh -> (lo + x * hi_lo <=? hi)%float = true).
Proof.
  intros Hw Hy Hlo Hz Hhi Heb Hez Hchk Hle Hchk2 x [H0 H1].
  pose proof (unit_draw x H0 H1) as Hx.
  pose proof (mul_nn_le hi_lo _ mw mb ew eb Hw Hy Heb x _ Hx Hchk) as Hm.
  pose proof (add_pos_between lo _ ml mz el ez Hlo Hz Hez _ _ Hm Hle Hchk2) as Ha.
  apply (between_pos_cmp _ lo hi _ _ ml mh el eh Ha Hlo Hhi). lia.
Qed.

Lemma scale_from_neg (lo hi_lo : float) (mw mb ml : positive) (ew eb el : Z) :
  Prim2SF hi_lo = S754_finite false mw ew ->
  Prim2SF (xmax * hi_lo)%float = S754_finite false mb eb ->
  Prim2SF lo = S754_finite true ml el ->
  eb <= 900 -> el <= 900 ->
  2 * ((2 ^ 53 - 1) * two_pow (-53) * (Zpos mw * two_pow ew))
  < (2 * (Zpos mb * two_pow eb) + two_pow eb) * 2 ^ pow_offset ->
  Zpos mb * two_pow eb < Zpos ml * two_pow el ->
  forall x, unit_interval x ->
    (lo <=? lo + x * hi_lo)%float = true /\ (lo + x * hi_lo <? 0)%float = true.
Proof.
  intros Hw Hy Hlo Heb Hel Hchk Hlt x [H0 H1].
  pose proof (unit_draw x H0 H1) as Hx.
  pose proof (mul_nn_le hi_lo _ mw mb ew eb Hw Hy Heb x _ Hx Hchk) as Hm.
  pose proof (add_neg_between lo ml el Hlo Hel _ _ Hm Hlt) as Ha.
  apply (between_neg_cmp _ lo _ _ ml el Ha Hlo). lia.
Qed.

End Binary64.

(** ** The characteristic function, the integrand and the call price *)

(** An integrator's run sees the integrand at its abscissae only. *)
Lemma run_quadpack_ext (f g : float -> float) (q : Quadpack) :
  Forall (fun x => g x = f x) (q_nodes (run_quadpack f q)) ->
  run_quadpack g q = run_quadpack f q.
Proof.
  induction q as [res err s|x k IH]; intros Hall; [reflexivity|].
  cbn [run_quadpack q_nodes] in Hall |- *.
  apply List.Forall_cons_iff in Hall. destruct Hall as [Hx Hrest].
  rewrite Hx. now rewrite (IH (f x) Hrest).
Qed.

Section PricingFacts.

Context (np : NumPy).

#[local] Open Scope float_scope.

(** The frequency shift [u - i] of a real frequency [u] is the complex
    number with real part [u] and imaginary part [-1]. *)
Lemma shifted_frequency (u : float) : (cplx u - Cx 0 1)%cx = Cx u (-1).
Proof.
  unfold Complex.sub, Complex.of_real; cbn [re im].
  now rewrite float_sub_zero.
Qed.

Lemma expecting_match :
  expecting 0 100 100 1e-8 1e-8 0 100 100%Z 1e-8 1e-8 = Done 1 0 Converged.
Proof. reflexivity. Qed.



End PricingFacts.

(** ** The batch loop *)

Section LoopFacts.

Context (np : NumPy) (qp : Integrator).

#[local] Open Scope float_scope.

Lemma main_step_fold (idxs : list Z) (l : list vec8) (st : loop_state) :
  length idxs = length l ->
  result_data (fold_left (main_step np qp) (combine idxs l) st)
  = result_data st
    ++ map (fun p => kept_row p (sample_price np qp p))
         (List.filter (fun p => accept (sample_price np qp p)) l).
Proof.
  revert idxs st.
  induction l as [|p l IH]; intros [|i idxs] st Hlen; try discriminate.
  - cbn. now rewrite !app_nil_r.
  - cbn [combine fold_left List.filter].
    injection Hlen as Hlen.
    rewrite (IH idxs (main_step np qp st (i, p)) Hlen). clear IH.
    destruct p as [m tau r rho kappa theta sigma v0].
    unfold main_step; cbn [result_data].
    set (price := sample_price np qp _).
    destruct (accept price); cbn [map]; unfold kept_row; cbn [c0 c1 c2 c3 c4 c5 c6 c7].
    all: now rewrite <- ?app_assoc.
Qed.

Lemma main_loop_spec (param_sets : list vec8) :
  result_data (main_loop np qp param_sets)
  = map (fun p => kept_row p (sample_price np qp p))
      (List.filter (fun p => accept (sample_price np qp p)) param_sets).
Proof.
  unfold main_loop, enumerate.
  apply (main_step_fold (map Z.of_nat (seq 0 (length param_sets))) param_sets).
  now rewrite length_map, length_seq.
Qed.

End LoopFacts.

Section FilterFacts.

#[local] Open Scope float_scope.

Lemma SFcompare_refl (x : spec_float) :
  x <> S754_nan -> SFcompare x x = Some Eq.
Proof.
  destruct x as [s|[]| |[] m e]; cbn; try congruence;
    rewrite Z.compare_refl, Pos.compare_cont_refl; reflexivity.
Qed.

Lemma accept_finite (price : float) :
  accept price = true -> is_finite price = true.
Proof.
  unfold accept, is_finite, is_nan, is_infinity.
  intros H. apply andb_true_iff in H. destruct H as [H0 H1].
  rewrite FloatAxioms.ltb_spec in H0, H1.
  rewrite !FloatAxioms.eqb_spec, FloatAxioms.abs_spec.
  change (Prim2SF 0) with (S754_zero false) in H0.
  change (Prim2SF infinity) with (S754_infinity false).
  destruct (Prim2SF price) as [s|[]| |[] m e] eqn:E; try discriminate.
  unfold SFeqb. rewrite SFcompare_refl by discriminate. reflexivity.
Qed.

Lemma accept_iff (price : float) :
  accept price = true <-> (0.0 <? price) = true /\ (price <? 0.66) = true.
Proof. unfold accept. apply andb_true_iff. Qed.

(** The value of an accepted price: a positive finite number
    [m * 2 ^ e] below [5944751508129055 * 2 ^ (-53)], the binary64
    number written [0.66]. *)
Lemma accept_value (price : float) :
  accept price = true
  <-> exists m e,
        Prim2SF price = S754_finite false m e
        /\ (Zpos m * two_pow e < 5944751508129055 * two_pow (-53))%Z.
Proof.
  unfold accept. rewrite andb_true_iff, !FloatAxioms.ltb_spec, Prim2SF_zero.
  change (Prim2SF 0.66) with (S754_finite false 5944751508129055 (-53)).
  split.
  - intros [H0 H1].
    destruct (Prim2SF price) as [s|[]| |[] m e] eqn:Hp; try discriminate.
    exists m, e. split; [reflexivity|].
    pose proof (valid_finite price _ _ _ Hp) as Hv.
    unfold SFltb in H1.
    rewrite (SFcompare_pos m e 5944751508129055 (-53) Hv eq_refl) in H1.
    destruct (Z.compare_spec (Zpos m * two_pow e)
                (5944751508129055 * two_pow (-53))); try discriminate.
    assumption.
  - intros (m & e & Hp & Hlt).
    pose proof (valid_finite price _ _ _ Hp) as Hv.
    rewrite Hp. split; [reflexivity|].
    unfold SFltb.
    rewrite (SFcompare_pos m e 5944751508129055 (-53) Hv eq_refl).
    apply Z.compare_lt_iff in Hlt. now rewrite Hlt.
Qed.

End FilterFacts.

Section BatchFacts.

Context (np : NumPy) (qp : Integrator) (lhs_random : Z -> list vec8).

#[local] Open Scope float_scope.

(** C3.  The filter of [main] accepts a price exactly when both strict
    comparisons [0.0 < price] and [price < 0.66] hold, that is, when the
    price is a finite number whose value lies strictly between 0 and the
    value of the binary64 number [0.66]; the prices [0.0], [-0.0] and
    [0.66], and every price that is not finite (NaN or an infinity), are
    rejected.  Over a batch, the rows kept are exactly the samples whose
    price is accepted, each with its price and in the order of the
    batch: a rejected sample leaves no row and the samples after it are
    processed as if it had not been there.  When [main] is given a
    count [N >= 0] it returns, and the file it writes holds exactly the
    kept rows; given a negative count it raises [ValueError] and leaves
    every file as it was. *)
Theorem validity_filter :
  (forall price, accept price = true <-> (0.0 <? price) = true /\ (price <? 0.66) = true)
  /\ (forall price,
        accept price = true
        <-> exists m e,
              Prim2SF price = S754_finite false m e
              /\ (Zpos m * two_pow e < 5944751508129055 * two_pow (-53))%Z)
  /\ accept 0.0 = false /\ accept (-0.0) = false /\ accept 0.66 = false
  /\ (forall price, is_finite price = false -> accept price = false)
  /\ (forall param_sets,
        result_data (main_loop np qp param_sets)
        = map (fun p => kept_row p (sample_price np qp p))
            (List.filter (fun p => accept (sample_price np qp p)) param_sets))
  /\ (forall before p after,
        accept (sample_price np qp p) = false ->
        result_data (main_loop np qp (before ++ p :: after))
        = result_data (main_loop np qp (before ++ after)))
  /\ (forall N files,
        (0 <= N)%Z ->
        let param_sets := generate_lhs_samples lhs_random N in
        fst (main np qp lhs_random N files) = Returned
        /\ option_map csv_rows
             (snd (main np qp lhs_random N files) !! "Fourier_Prices.csv")
           = Some (map (fun p => kept_row p (sample_price np qp p))
                     (List.filter (fun p => accept (sample_price np qp p)) param_sets)))
  /\ (forall N files,
        (N < 0)%Z -> main np qp lhs_random N files = (Raised ValueError, files)).
Proof.
  split; [exact accept_iff|].
  split; [exact accept_value|].
  do 3 (split; [reflexivity|]).
  split.
  { intros price Hnf. destruct (accept price) eqn:E; [|reflexivity].
    apply accept_finite in E. congruence. }
  split; [apply main_loop_spec|].
  split.
  { intros before p after Hrej. rewrite !main_loop_spec.
    rewrite !List.filter_app. cbn [List.filter]. now rewrite Hrej. }
  split.
  - intros N files HN param_sets. unfold main.
    replace (N <? 0)%Z with false by (symmetry; apply Z.ltb_ge; lia).
    cbn [fst snd]. split; [reflexivity|].
    unfold save_to_csv. rewrite lookup_insert_eq. cbn [option_map csv_rows].
    f_equal. apply main_loop_spec.
  - intros N files HN. unfold main.
    now replace (N <? 0)%Z with true by (symmetry; apply Z.ltb_lt; lia).
Qed.

End BatchFacts.

(** ** The chunked filter *)

Section ChunkedFilter.

Lemma keep_within_bounds (r : row) : keep r = true <-> within_bounds r.
Proof.
  unfold keep, within_bounds.
  rewrite !andb_true_iff. tauto.
Qed.

Lemma rows_of_map_RowLine (rs : list row) : rows_of (map RowLine rs) = rs.
Proof. induction rs as [|r rs IH]; cbn; [reflexivity | now f_equal]. Qed.

Lemma chunks_of_concat (n : nat) (fuel : nat) (rows : list row) :
  (0 < n)%nat -> (length rows < fuel)%nat ->
  concat (chunks_of fuel n rows) = rows.
Proof.
  intros Hn. revert rows.
  induction fuel as [|fuel IH]; intros rows Hlen; [lia|].
  cbn [chunks_of].
  destruct (skipn n rows) as [|x rest] eqn:Hskip.
  - cbn. rewrite app_nil_r. rewrite <- (firstn_skipn n rows) at 2.
    now rewrite Hskip, app_nil_r.
  - cbn [concat]. rewrite IH.
    + rewrite <- Hskip. apply firstn_skipn.
    + rewrite <- Hskip, length_skipn.
      destruct rows; [destruct n; discriminate|]. cbn [length] in *. lia.
Qed.

Lemma read_csv_concat (rows : list row) :
  concat (read_csv chunksize rows) = rows
  /\ read_csv chunksize rows <> [].
Proof.
  split.
  - apply chunks_of_concat; [unfold chunksize; lia | lia].
  - unfold read_csv. cbn [chunks_of]. discriminate.
Qed.

Lemma filter_step_fold (chunks : list (list row)) (st : filter_state) :
  let st' := fold_left filter_step chunks st in
  let kept := List.filter keep (concat chunks) in
  total_filtered st' = (total_filtered st + Z.of_nat (length kept))%Z
  /\ output_file st'
     = match chunks with
       | [] => output_file st
       | _ :: _ =>
           (if header st then [HeaderLine] else output_file st) ++ map RowLine kept
       end.
Proof.
  revert st. induction chunks as [|c cs IH]; intros st; cbn zeta.
  - cbn. split; [lia | reflexivity].
  - cbn [fold_left concat]. rewrite List.filter_app, List.length_app, List.map_app.
    destruct (IH (filter_step st c)) as [Htot Hout]. cbn zeta in Htot, Hout.
    rewrite Htot, Hout. clear Htot Hout IH.
    unfold filter_step; cbn [total_filtered output_file header].
    split; [lia|].
    unfold to_csv.
    destruct cs as [|c' cs]; destruct (header st); cbn [negb concat List.filter map app];
      rewrite ?app_nil_r, <- ?app_assoc; reflexivity.
Qed.

(** C10.  For every input table, read [chunksize] rows at a time, and
    whatever the output file held before: after [filter.py] has run, the
    output file is one header line followed by exactly the input rows
    that pass the mask, unchanged and in their input order; hence every
    output row satisfies the strict bounds [0.6 < moneyness < 1.4] and
    [0.05 < initial_variance < 0.5], every input row that satisfies them
    is an output row, and the total the script reports is the number of
    rows written. *)
Theorem filter_script_correct (old : list line) (rows : list row) :
  let st := filter_script old (read_csv chunksize rows) in
  output_file st = HeaderLine :: map RowLine (List.filter keep rows)
  /\ rows_of (output_file st) = List.filter keep rows
  /\ Forall within_bounds (rows_of (output_file st))
  /\ (forall r, In r rows -> within_bounds r -> In r (rows_of (output_file st)))
  /\ total_filtered st = Z.of_nat (length (rows_of (output_file st))).
Proof.
  intros st.
  destruct (read_csv_concat rows) as [Hcat Hne].
  destruct (filter_step_fold (read_csv chunksize rows)
              {| output_file := old; header := true; total_filtered := 0 |})
    as [Htot Hout].
  cbn zeta in Htot, Hout. fold (filter_script old (read_csv chunksize rows)) in Htot, Hout.
  fold st in Htot, Hout. rewrite Hcat in Htot, Hout.
  cbn [header total_filtered] in Htot, Hout.
  assert (Hfile : output_file st = HeaderLine :: map RowLine (List.filter keep rows)).
  { rewrite Hout. destruct (read_csv chunksize rows); [congruence | reflexivity]. }
  assert (Hrows : rows_of (output_file st) = List.filter keep rows).
  { rewrite Hfile. cbn. apply rows_of_map_RowLine. }
  split; [exact Hfile|]. split; [exact Hrows|]. rewrite Hrows.
  split; [|split].
  - apply List.Forall_forall. intros r Hr.
    apply List.filter_In in Hr. now apply keep_within_bounds.
  - intros r Hin Hb. apply List.filter_In. split; [exact Hin|].
    now apply keep_within_bounds.
  - rewrite Htot. lia.
Qed.

End ChunkedFilter.

(** ** The characteristic function at [sigma = 0] *)

Section SigmaZero.

#[local] Open Scope float_scope.

Lemma is_finite_spec (x : float) :
  is_finite x = negb (SFnonfinite (Prim2SF x)).
Proof.
  unfold is_finite, is_nan, is_infinity.
  rewrite !FloatAxioms.eqb_spec, FloatAxioms.abs_spec.
  change (Prim2SF infinity) with (S754_infinity false).
  destruct (Prim2SF x) as [s|[]| |[] m e] eqn:E; try reflexivity;
    unfold SFeqb; rewrite SFcompare_refl by discriminate; reflexivity.
Qed.

Lemma eqb_zero (x : float) :
  (x =? 0) = true -> exists s, Prim2SF x = S754_zero s.
Proof.
  rewrite FloatAxioms.eqb_spec. change (Prim2SF 0) with (S754_zero false).
  destruct (Prim2SF x) as [s|[]| |[] m e]; try discriminate. eauto.
Qed.

Lemma fpow2_zero (x : float) : (x =? 0) = true -> fpow2 x = 0.
Proof.
  intros H. destruct (eqb_zero x H) as [s Hs].
  apply Prim2SF_inj. unfold fpow2. rewrite FloatAxioms.mul_spec, Hs.
  now destruct s.
Qed.

Lemma div_zero_nonfinite (a : float) : SFnonfinite (Prim2SF (a / 0)) = true.
Proof.
  rewrite FloatAxioms.div_spec. change (Prim2SF 0) with (S754_zero false).
  now destruct (Prim2SF a) as [s|[]| |[] m e].
Qed.

Lemma div_zero_zero (a : float) : (a =? 0) = true -> a / 0 = nan.
Proof.
  intros H. destruct (eqb_zero a H) as [s Hs].
  apply Prim2SF_inj. rewrite FloatAxioms.div_spec, Hs. reflexivity.
Qed.

Lemma nonfinite_mul_sub (c x y : float) :
  SFnonfinite (Prim2SF c) = true ->
  SFnonfinite (Prim2SF (c * x - 0 * y)) = true.
Proof.
  rewrite FloatAxioms.sub_spec, !FloatAxioms.mul_spec.
  change (Prim2SF 0) with (S754_zero false).
  destruct (Prim2SF c) as [s|[]| |[] m e]; try discriminate; intros _;
    destruct (Prim2SF x) as [sx|[]| |[] mx ex];
    destruct (Prim2SF y) as [sy|[]| |[] my ey]; reflexivity.
Qed.

Lemma nonfinite_add_r (x p : float) :
  SFnonfinite (Prim2SF p) = true -> SFnonfinite (Prim2SF (x + p)) = true.
Proof.
  rewrite FloatAxioms.add_spec.
  destruct (Prim2SF p) as [s|[]| |[] m e]; try discriminate; intros _;
    destruct (Prim2SF x) as [sx|[]| |[] mx ex]; reflexivity.
Qed.

Lemma nonfinite_add_l (x p : float) :
  SFnonfinite (Prim2SF p) = true -> SFnonfinite (Prim2SF (p + x)) = true.
Proof.
  rewrite FloatAxioms.add_spec.
  destruct (Prim2SF p) as [s|[]| |[] m e]; try discriminate; intros _;
    destruct (Prim2SF x) as [sx|[]| |[] mx ex]; reflexivity.
Qed.

Lemma nan_add_l (x : float) : nan + x = nan.
Proof.
  apply Prim2SF_inj. rewrite FloatAxioms.add_spec.
  change (Prim2SF nan) with S754_nan. reflexivity.
Qed.

Lemma nan_add_r (x : float) : x + nan = nan.
Proof.
  apply Prim2SF_inj. rewrite FloatAxioms.add_spec.
  change (Prim2SF nan) with S754_nan. now destruct (Prim2SF x) as [s|[]| |[] m e].
Qed.

Lemma nan_sub_l (x : float) : nan - x = nan.
Proof.
  apply Prim2SF_inj. rewrite FloatAxioms.sub_spec.
  change (Prim2SF nan) with S754_nan. reflexivity.
Qed.

Lemma nan_mul_l (x : float) : nan * x = nan.
Proof.
  apply Prim2SF_inj. rewrite FloatAxioms.mul_spec.
  change (Prim2SF nan) with S754_nan. reflexivity.
Qed.

Lemma nan_mul_r (x : float) : x * nan = nan.
Proof. rewrite float_mul_comm. apply nan_mul_l. Qed.

Lemma nan_not_close (bs : float) : (abs (nan - bs) <=? 1e-4) = false.
Proof.
  rewrite nan_sub_l, FloatAxioms.leb_spec, FloatAxioms.abs_spec. reflexivity.
Qed.

Lemma cplx_nan_mul (z : complex) : (cplx nan * z)%cx = Cx nan nan.
Proof.
  unfold Complex.mul, Complex.of_real; cbn [re im].
  now rewrite !nan_mul_l, nan_sub_l, nan_add_l.
Qed.

Lemma cx_mul_nan (z : complex) : (z * Cx nan nan)%cx = Cx nan nan.
Proof.
  unfold Complex.mul; cbn [re im].
  now rewrite !nan_mul_r, nan_sub_l, nan_add_l.
Qed.

Lemma cx_nan_add (z : complex) : (Cx nan nan + z)%cx = Cx nan nan.
Proof. unfold Complex.add; cbn [re im]. now rewrite !nan_add_l. Qed.

Lemma cx_add_nan (z : complex) : (z + Cx nan nan)%cx = Cx nan nan.
Proof. unfold Complex.add; cbn [re im]. now rewrite !nan_add_r. Qed.

Context (np : NumPy).

Lemma heston_char_function_exponent (u t S0 r kappa theta sigma rho v0 : float) :
  heston_char_function np u t S0 r kappa theta sigma rho v0
  = np_exp np (heston_exponent np u t S0 r kappa theta sigma rho v0).
Proof. reflexivity. Qed.

Lemma heston_exponent_shape (u t S0 r kappa theta sigma rho v0 : float) :
  exists X Z Y1 Y2 : complex,
    heston_exponent np u t S0 r kappa theta sigma rho v0
    = (X + cplx (kappa * theta / fpow2 sigma) * Z + Y1 + Y2)%cx.
Proof. unfold heston_exponent. cbv zeta. do 4 eexists. reflexivity. Qed.

Lemma nonfinite_coefficient (c : float) (X Z Y1 Y2 : complex) :
  SFnonfinite (Prim2SF c) = true ->
  SFnonfinite (Prim2SF (re (X + cplx c * Z + Y1 + Y2)%cx)) = true.
Proof.
  intros Hc. unfold Complex.add, Complex.mul, Complex.of_real; cbn [re im].
  do 2 apply nonfinite_add_l. apply nonfinite_add_r.
  now apply nonfinite_mul_sub.
Qed.

Lemma sigma_zero_exponent_nonfinite (u t S0 r kappa theta sigma rho v0 : float) :
  (sigma =? 0) = true ->
  is_finite (kappa * theta / fpow2 sigma) = false
  /\ is_finite (re (heston_exponent np u t S0 r kappa theta sigma rho v0)) = false.
Proof.
  intros Hs. rewrite !is_finite_spec.
  destruct (heston_exponent_shape u t S0 r kappa theta sigma rho v0)
    as (X & Z & Y1 & Y2 & ->).
  rewrite (fpow2_zero sigma Hs).
  pose proof (div_zero_nonfinite (kappa * theta)) as Hc.
  split; [now rewrite Hc|].
  now rewrite nonfinite_coefficient.
Qed.

Lemma sigma_zero_exponent_nan (u t S0 r kappa theta sigma rho v0 : float) :
  (sigma =? 0) = true -> (kappa * theta =? 0) = true ->
  heston_exponent np u t S0 r kappa theta sigma rho v0 = Cx nan nan.
Proof.
  intros Hs Ha.
  destruct (heston_exponent_shape u t S0 r kappa theta sigma rho v0)
    as (X & Z & Y1 & Y2 & ->).
  rewrite (fpow2_zero sigma Hs), (div_zero_zero _ Ha).
  now rewrite cplx_nan_mul, cx_add_nan, !cx_nan_add.
Qed.

Lemma sigma_zero_price_nan (qp : Integrator)
    (S0 K t r kappa theta sigma rho v0 : float) :
  (sigma =? 0) = true -> (kappa * theta =? 0) = true ->
  nan_propagating np -> nan_summing qp ->
  heston_call_price np qp S0 K t r kappa theta sigma rho v0 = nan.
Proof.
  intros Hs Ha [Hexp Hdiv] Hqp.
  unfold heston_call_price, quad.
  rewrite Hqp; [now rewrite nan_mul_r, nan_add_r|].
  intros u. unfold heston_integrand.
  rewrite heston_char_function_exponent, sigma_zero_exponent_nan by assumption.
  cbv zeta. now rewrite Hexp, cx_mul_nan, Hdiv.
Qed.

End SigmaZero.

Lemma np_nan_propagating : nan_propagating np_nan.
Proof. split; reflexivity. Qed.

Lemma midpoint_nan_summing : nan_summing midpoint_integrator.
Proof.
  intros f a b limit epsabs epsrel Hf.
  unfold midpoint_integrator; cbn. rewrite Hf. apply nan_mul_r.
Qed.

Section SigmaZeroClaim.

Context (np : NumPy) (qp : Integrator).

#[local] Open Scope float_scope.

(** C6, as the program has it.  For every parameter record with
    [sigma = 0] the program computes no Black-Scholes price: at every
    frequency the coefficient [kappa * theta / sigma ** 2] is a division
    by zero, NaN or an infinity, and the real part of the exponent that
    [heston_char_function] hands to [np.exp] is NaN or an infinity.
    When moreover [kappa * theta = 0], and the exponential, the quotient
    and the integrator hand a NaN on, the price returned is NaN, which
    is within [1e-4] of no number. *)
Theorem sigma_zero_no_black_scholes
    (S0 K t r kappa theta sigma rho v0 : float) :
  (sigma =? 0) = true ->
  (forall u,
      is_finite (kappa * theta / fpow2 sigma) = false
      /\ is_finite (re (heston_exponent np u t S0 r kappa theta sigma rho v0)) = false
      /\ heston_char_function np u t S0 r kappa theta sigma rho v0
         = np_exp np (heston_exponent np u t S0 r kappa theta sigma rho v0))
  /\ ((kappa * theta =? 0) = true -> nan_propagating np -> nan_summing qp ->
      heston_call_price np qp S0 K t r kappa theta sigma rho v0 = nan
      /\ forall bs,
           (abs (heston_call_price np qp S0 K t r kappa theta sigma rho v0 - bs)
            <=? 1e-4) = false).
Proof.
  intros Hs. split.
  - intros u.
    destruct (sigma_zero_exponent_nonfinite np u t S0 r kappa theta sigma rho v0 Hs)
      as [Hc He].
    repeat split; assumption || reflexivity.
  - intros Ha Hnp Hqp.
    rewrite (sigma_zero_price_nan np qp S0 K t r kappa theta sigma rho v0 Hs Ha Hnp Hqp).
    split; [reflexivity | apply nan_not_close].
Qed.

End SigmaZeroClaim.

(** The hypothesis of [sigma_zero_no_black_scholes] holds at
    [sigma = 0]; there, with [theta = 0], the price is NaN. *)
Lemma sigma_zero_no_black_scholes_witness :
  (0 =? 0)%float = true
  /\ heston_call_price np_nan midpoint_integrator 1 1 1 0.05 1.5 0 0 (-0.7) 0.04 = nan.
Proof.
  split; [reflexivity|].
  apply (sigma_zero_no_black_scholes np_nan midpoint_integrator
           1 1 1 0.05 1.5 0 0 (-0.7) 0.04)%float.
  - reflexivity.
  - reflexivity.
  - exact np_nan_propagating.
  - exact midpoint_nan_summing.
Defined.

(** C6, as the specification has it, fails.  Routines that hand a NaN
    on exist, and with any such routines the price at
    [S0 = 1, K = 1, t = 1, r = 0.05, kappa = 1.5, theta = 0, sigma = 0,
    rho = -0.7, v0 = 0.04] is within [1e-4] of no candidate
    Black-Scholes price. *)
Lemma sigma_zero_price_matches_nothing :
  (exists np qp, nan_propagating np /\ nan_summing qp)
  /\ ~ (exists (np : NumPy) (qp : Integrator) (bs : float),
          nan_propagating np /\ nan_summing qp
          /\ (abs (heston_call_price np qp 1 1 1 0.05 1.5 0 0 (-0.7) 0.04 - bs)
              <=? 1e-4)%float = true).
Proof.
  split.
  - exists np_nan, midpoint_integrator.
    split; [exact np_nan_propagating | exact midpoint_nan_summing].
  - intros (np & qp & bs & Hnp & Hqp & H).
    rewrite (sigma_zero_price_nan np qp) in H; try assumption; try reflexivity.
    rewrite nan_not_close in H. discriminate.
Qed.

(** ** The sampler *)

Section SamplerRanges.

#[local] Open Scope float_scope.

Lemma moneyness_range (x : float) : unit_interval x ->
  (0.6 <=? 0.6 + x * (1.4 - 0.6)) = true /\ (0.6 + x * (1.4 - 0.6) <=? 1.4) = true.
Proof.
  intros Hx.
  eapply (scale_from_pos 0.6 (1.4 - 0.6) 1.4) in Hx;
    [ | float_const | float_const | float_const | float_const | float_const
      | lia | lia | zcheck | zcheck | zcheck ].
  destruct Hx as (H1 & _ & H3). split; [exact H1|]. apply H3. zcheck.
Qed.

Lemma tau_range (x : float) : unit_interval x ->
  (0.1 <=? 0.1 + x * (1.4 - 0.1)) = true /\ (0.1 + x * (1.4 - 0.1) <? 1.4) = true.
Proof.
  intros Hx.
  eapply (scale_from_pos 0.1 (1.4 - 0.1) 1.4) in Hx;
    [ | float_const | float_const | float_const | float_const | float_const
      | lia | lia | zcheck | zcheck | zcheck ].
  destruct Hx as (H1 & H2 & _). split; [exact H1|]. apply H2. zcheck.
Qed.

Lemma r_range (x : float) : unit_interval x ->
  (0.0 <=? 0.0 + x * (0.10 - 0.0)) = true /\ (0.0 + x * (0.10 - 0.0) <? 0.10) = true.
Proof.
  eapply (scale_from_zero (0.10 - 0.0) 0.10);
    [float_const | float_const | float_const | lia | zcheck | zcheck].
Qed.

Lemma rho_range (x : float) : unit_interval x ->
  (-0.95 <=? -0.95 + x * (0.0 - -0.95)) = true
  /\ (-0.95 + x * (0.0 - -0.95) <? 0.0) = true.
Proof.
  eapply (scale_from_neg (-0.95) (0.0 - -0.95));
    [float_const | float_const | float_const | lia | lia | zcheck | zcheck].
Qed.

Lemma kappa_range (x : float) : unit_interval x ->
  (0.0 <=? 0.0 + x * (2.0 - 0.0)) = true /\ (0.0 + x * (2.0 - 0.0) <? 2.0) = true.
Proof.
  eapply (scale_from_zero (2.0 - 0.0) 2.0);
    [float_const | float_const | float_const | lia | zcheck | zcheck].
Qed.

Lemma theta_range (x : float) : unit_interval x ->
  (0.0 <=? 0.0 + x * (0.5 - 0.0)) = true /\ (0.0 + x * (0.5 - 0.0) <? 0.5) = true.
Proof.
  eapply (scale_from_zero (0.5 - 0.0) 0.5);
    [float_const | float_const | float_const | lia | zcheck | zcheck].
Qed.

Lemma v0_range (x : float) : unit_interval x ->
  (0.05 <=? 0.05 + x * (0.5 - 0.05)) = true /\ (0.05 + x * (0.5 - 0.05) <? 0.5) = true.
Proof.
  intros Hx.
  eapply (scale_from_pos 0.05 (0.5 - 0.05) 0.5) in Hx;
    [ | float_const | float_const | float_const | float_const | float_const
      | lia | lia | zcheck | zcheck | zcheck ].
  destruct Hx as (H1 & H2 & _). split; [exact H1|]. apply H2. zcheck.
Qed.

Lemma scale_row_in_ranges (u : vec8) : unit_cube u -> in_ranges (scale_row u).
Proof.
  intros (H0 & H1 & H2 & H3 & H4 & H5 & H6 & H7).
  unfold in_ranges, scale_row; cbn [c0 c1 c2 c3 c4 c5 c6 c7].
  repeat split;
    first [ now apply moneyness_range | now apply tau_range | now apply r_range
          | now apply rho_range | now apply kappa_range | now apply theta_range
          | now apply v0_range ].
Qed.

Lemma column_stack_map (f0 f1 f2 f3 f4 f5 f6 f7 : float -> float) (l : list vec8) :
  column_stack (map f0 (map c0 l)) (map f1 (map c1 l)) (map f2 (map c2 l))
    (map f3 (map c3 l)) (map f4 (map c4 l)) (map f5 (map c5 l))
    (map f6 (map c6 l)) (map f7 (map c7 l))
  = map (fun u => Vec8 (f0 (c0 u)) (f1 (c1 u)) (f2 (c2 u)) (f3 (c3 u))
                    (f4 (c4 u)) (f5 (c5 u)) (f6 (c6 u)) (f7 (c7 u))) l.
Proof.
  induction l as [|u l IH]; [reflexivity|].
  cbn [map column_stack]. now rewrite IH.
Qed.

Context (lhs_random : Z -> list vec8).

Lemma generate_lhs_samples_rows (samples : Z) :
  generate_lhs_samples lhs_random samples = map scale_row (lhs_random samples).
Proof.
  unfold generate_lhs_samples. cbv beta iota zeta.
  now rewrite column_stack_map.
Qed.

(** C7, as the program has it.  For every [n >= 1] and every [n]-by-8
    matrix of draws in [[0, 1)], [generate_lhs_samples] returns exactly
    [n] rows of eight numbers, row [k] being the coordinate-wise affine
    image [min + x * (max - min)] of draw [k]; every coordinate lies in
    its declared range, half-open as declared for tau, r, rho, kappa,
    theta, sigma and v0, and closed for the moneyness: in [[0.6, 1.4]]. *)
Theorem generate_lhs_samples_ranges (n : Z) :
  (1 <= n)%Z ->
  length (lhs_random n) = Z.to_nat n ->
  Forall unit_cube (lhs_random n) ->
  length (generate_lhs_samples lhs_random n) = Z.to_nat n
  /\ generate_lhs_samples lhs_random n = map scale_row (lhs_random n)
  /\ Forall in_ranges (generate_lhs_samples lhs_random n).
Proof.
  intros Hn Hlen Hcube. rewrite generate_lhs_samples_rows.
  split; [now rewrite length_map|]. split; [reflexivity|].
  apply List.Forall_forall. intros p Hp.
  apply List.in_map_iff in Hp. destruct Hp as (u & <- & Hu).
  apply scale_row_in_ranges.
  now apply (proj1 (List.Forall_forall _ _) Hcube).
Qed.

End SamplerRanges.

(** The hypotheses of [generate_lhs_samples_ranges] hold of
    [two_draws]. *)
Lemma generate_lhs_samples_ranges_witness :
  Forall in_ranges (generate_lhs_samples (fun _ => two_draws) 2).
Proof.
  apply (generate_lhs_samples_ranges (fun _ => two_draws) 2).
  - lia.
  - reflexivity.
  - unfold two_draws. repeat constructor.
Defined.

(** C7, as the specification has it, fails.  The draw whose first
    coordinate is the largest binary64 number below 1 lies in the unit
    cube, and its moneyness is exactly [1.4], outside [[0.6, 1.4)]. *)
Lemma moneyness_reaches_upper_bound :
  let draw := Vec8 xmax 0.5 0.5 0.5 0.5 0.5 0.5 0.5 in
  ((0 <=? xmax) = true /\ (xmax <? 1) = true)%float
  /\ map c0 (generate_lhs_samples (fun _ => [draw]) 1) = [1.4%float]
  /\ (1.4 <? 1.4)%float = false.
Proof. vm_compute. repeat split. Qed.

(** ** The abscissae of the integration *)

Section Nodes.

#[local] Open Scope Z_scope.

Lemma Zdigits2_shift (m : positive) (k : Z) :
  0 <= k -> Zdigits2 (2 ^ k * Zpos m) = Zdigits2 (Zpos m) + k.
Proof.
  intros Hk.
  destruct (Zdigits2_bounds (Zpos m) ltac:(lia)) as (Hd & Hlo & Hhi).
  set (d := Zdigits2 (Zpos m)) in *.
  pose proof (pow2_pos k Hk) as HT.
  assert (HP : 0 < 2 ^ k * Zpos m) by nia.
  apply Z.le_antisymm.
  - apply Zdigits2_le; [exact HP | lia |].
    rewrite Z.pow_add_r by lia. nia.
  - apply Zdigits2_ge; [exact HP|].
    replace (d + k - 1) with (k + (d - 1)) by lia.
    rewrite Z.pow_add_r by lia. nia.
Qed.

Lemma float_one_mul (u : float) (m : positive) (e : Z) :
  Prim2SF u = S754_finite false m e -> (1 * u)%float = u.
Proof.
  intros Hu. apply Prim2SF_inj.
  rewrite FloatAxioms.mul_spec, Prim2SF_one, Hu. unfold SF64mul, SFmul.
  change (xorb false false) with false.
  pose proof (valid_finite u _ _ _ Hu) as Hv.
  destruct (bounded_facts m e Hv) as (He & Hm & _).
  assert (Hcan : fexp prec emax (Zdigits2 (Zpos m) + e) = e).
  { unfold bounded, canonical_mantissa in Hv.
    apply andb_true_iff in Hv. destruct Hv as [Hc _].
    now apply Z.eqb_eq in Hc. }
  set (P := Zpos (4503599627370496 * m)).
  assert (HPm : P = 2 ^ 52 * Zpos m) by (subst P; rewrite Pos2Z.inj_mul; reflexivity).
  destruct (binary_round_aux_spec false P (-52 + e) ltac:(lia))
    as [[k q R M Hk Hdiv Hrem Hq Hqge Hexp Hc Hdn Hup Hex] ->].
  cbn [rnd_k rnd_M].
  assert (Hk52 : k = 52).
  { rewrite Hk, HPm, Zdigits2_shift by lia.
    replace (Zdigits2 (Zpos m) + 52 + (-52 + e)) with (Zdigits2 (Zpos m) + e) by lia.
    rewrite Hcan. lia. }
  clear Hk. subst k. change (2 ^ 52) with 4503599627370496 in *.
  change (2 ^ 53) with 9007199254740992 in *.
  assert (R = 0 /\ q = Zpos m) by lia. destruct H as [HR Hqm].
  specialize (Hex HR). subst M q.
  unfold rounded.
  replace (Zpos m =? 0) with false by (symmetry; apply Z.eqb_neq; lia).
  replace (Zpos m =? 2 ^ 53) with false
    by (symmetry; apply Z.eqb_neq; change (2 ^ 53) with 9007199254740992; lia).
  replace (-52 + e + 52) with e by lia.
  replace (e <=? 971) with true by (symmetry; apply Z.leb_le; lia).
  reflexivity.
Qed.

Lemma float_zero_add (u : float) (m : positive) (e : Z) :
  Prim2SF u = S754_finite false m e -> (0 + u)%float = u.
Proof.
  intros Hu. apply Prim2SF_inj.
  now rewrite FloatAxioms.add_spec, Prim2SF_zero, Hu.
Qed.

(** ** Exact and bounded operations *)

(** Multiplication by a power of two is exact on a normal number. *)
Lemma pow2_mul_exact (c u : float) (ec : Z) (m : positive) (e : Z) :
  Prim2SF c = S754_finite false 4503599627370496 ec ->
  Prim2SF u = S754_finite false m e ->
  2 ^ 52 <= Zpos m ->
  -1074 <= e + ec + 52 <= 971 ->
  Prim2SF (c * u)%float = S754_finite false m (e + ec + 52).
Proof.
  intros Hc Hu Hnorm Hrange.
  rewrite FloatAxioms.mul_spec, Hc, Hu. unfold SF64mul, SFmul.
  change (xorb false false) with false.
  pose proof (valid_finite u _ _ _ Hu) as Hv.
  destruct (bounded_facts m e Hv) as (He & Hm & _).
  destruct (Zdigits2_bounds (Zpos m) ltac:(lia)) as (Hd & Hlo & Hhi).
  assert (Hd53 : Zdigits2 (Zpos m) = 53).
  { apply Z.le_antisymm.
    - apply Zdigits2_le; lia.
    - apply Zdigits2_ge; [lia | exact Hnorm]. }
  set (P := Zpos (4503599627370496 * m)).
  assert (HPm : P = 2 ^ 52 * Zpos m) by (subst P; rewrite Pos2Z.inj_mul; reflexivity).
  destruct (binary_round_aux_spec false P (ec + e) ltac:(lia))
    as [[k q R M Hk Hdiv Hrem Hq Hqge Hexp Hcs Hdn Hup Hex] ->].
  cbn [rnd_k rnd_M].
  assert (Hk52 : k = 52).
  { rewrite Hk, HPm, Zdigits2_shift by lia. rewrite Hd53, fexp_eq. lia. }
  clear Hk. subst k. change (2 ^ 52) with 4503599627370496 in *.
  change (2 ^ 53) with 9007199254740992 in *.
  assert (R = 0 /\ q = Zpos m) by lia. destruct H as [HR Hqm].
  specialize (Hex HR). subst M q.
  unfold rounded.
  replace (Zpos m =? 0) with false by (symmetry; apply Z.eqb_neq; lia).
  replace (Zpos m =? 2 ^ 53) with false
    by (symmetry; apply Z.eqb_neq; change (2 ^ 53) with 9007199254740992; lia).
  replace (ec + e + 52) with (e + ec + 52) by lia.
  replace (e + ec + 52 <=? 971) with true by (symmetry; apply Z.leb_le; lia).
  reflexivity.
Qed.

(** A bound given as a valid mantissa and exponent. *)
Section AddPosPos.

Variables (x y : float) (mx my : positive) (ex ey : Z).
Hypothesis Hx : Prim2SF x = S754_finite false mx ex.
Hypothesis Hy : Prim2SF y = S754_finite false my ey.

Lemma add_pos_pos (ml mu : positive) (el eu : Z) :
  bounded prec emax ml el = true ->
  bounded prec emax mu eu = true ->
  eu <= 900 ->
  Zpos ml * two_pow el <= Zpos mx * two_pow ex + Zpos my * two_pow ey ->
  2 * (Zpos mx * two_pow ex + Zpos my * two_pow ey)
  < 2 * (Zpos mu * two_pow eu) + two_pow eu ->
  signed_between false (x + y)%float (Zpos ml * two_pow el) (Zpos mu * two_pow eu).
Proof.
  intros Hvl Hvu Heu Hlow Hup. unfold signed_between.
  rewrite FloatAxioms.add_spec, Hx, Hy. unfold SF64add, SFadd.
  pose proof (valid_finite x _ _ _ Hx) as Hvx.
  pose proof (valid_finite y _ _ _ Hy) as Hvy.
  destruct (bounded_facts mx ex Hvx) as (Hex & _ & _).
  destruct (bounded_facts my ey Hvy) as (Hey & _ & _).
  set (e0 := Z.min ex ey).
  assert (He0 : -1074 <= e0) by (subst e0; lia).
  pose proof (aligned mx ex e0 He0 ltac:(subst e0; lia)) as Ha.
  pose proof (aligned my ey e0 He0 ltac:(subst e0; lia)) as Hb.
  cbn [cond_Zopp].
  set (a := fst (shl_align mx ex e0)) in *.
  set (b := fst (shl_align my ey e0)) in *.
  change (Z.pos a + Z.pos b) with (Zpos (a + b)).
  cbn [binary_normalize].
  assert (HV : Zpos (a + b) * two_pow e0
               = Zpos mx * two_pow ex + Zpos my * two_pow ey).
  { rewrite Pos2Z.inj_add. lia. }
  pose proof (binary_round_sign false (a + b) e0 He0) as Hs.
  pose proof (binary_round_ge false (a + b) e0 ml el He0 Hvl ltac:(lia)) as Hge.
  destruct (binary_round_le false (a + b) e0 mu eu He0 Hvu Heu ltac:(lia)) as [Hfin Hmag].
  destruct (binary_round prec emax false (a + b) e0) as [s|s| |s m' e'];
    try discriminate; try contradiction. subst s.
  exists m', e'. split; [reflexivity|]. cbn [mag] in Hmag. lia.
Qed.

End AddPosPos.

(** Subtraction of a smaller non-negative number from a positive one. *)
Section SubPos.

Variables (x : float) (mx : positive) (ex : Z).
Hypothesis Hx : Prim2SF x = S754_finite false mx ex.
Hypothesis Hex : ex <= 900.

Lemma sub_nn_le (y : float) :
  nn_le y (Zpos mx * two_pow ex) ->
  nn_le (x - y)%float (Zpos mx * two_pow ex).
Proof.
  intros Hy. unfold nn_le.
  pose proof (valid_finite x _ _ _ Hx) as Hvx.
  destruct (bounded_facts mx ex Hvx) as (Hexr & _ & _).
  rewrite FloatAxioms.sub_spec, Hx. unfold SF64sub, SFsub.
  destruct Hy as [[s Hy]|(m & e & Hy & Hle)]; rewrite Hy.
  - right. exists mx, ex. split; [reflexivity | lia].
  - pose proof (valid_finite y _ _ _ Hy) as Hvy.
    destruct (bounded_facts m e Hvy) as (He & _ & _).
    set (e0 := Z.min ex e).
    assert (He0 : -1074 <= e0) by (subst e0; lia).
    pose proof (aligned mx ex e0 He0 ltac:(subst e0; lia)) as Ha.
    pose proof (aligned m e e0 He0 ltac:(subst e0; lia)) as Hb.
    cbn [cond_Zopp].
    set (a := fst (shl_align mx ex e0)) in *.
    set (b := fst (shl_align m e e0)) in *.
    pose proof (two_pow_pos e0 ltac:(unfold pow_offset; lia)) as HG0.
    assert (Hab : Zpos b <= Zpos a) by nia.
    assert (Hmy : 0 < Zpos m * two_pow e).
    { pose proof (two_pow_pos e ltac:(unfold pow_offset; lia)). nia. }
    destruct (Z.pos a - Z.pos b) as [|p|p] eqn:Hsum; try lia.
    + left. cbn [binary_normalize]. eauto.
    + cbn [binary_normalize].
      assert (HV : Zpos p * two_pow e0 = Zpos mx * two_pow ex - Zpos m * two_pow e).
      { replace (Zpos p) with (Zpos a - Zpos b) by lia. lia. }
      pose proof (binary_round_sign false p e0 He0) as Hs.
      destruct (binary_round_le false p e0 mx ex He0 Hvx Hex
                  ltac:(pose proof (two_pow_pos ex ltac:(unfold pow_offset; lia)); nia))
        as [Hfin Hmag].
      destruct (binary_round prec emax false p e0) as [s|s| |s m' e'];
        try discriminate; subst s.
      * left. eauto.
      * right. exists m', e'. split; [reflexivity | exact Hmag].
Qed.

Lemma sub_pos (y : float) (By : Z) :
  nn_le y By -> By < Zpos mx * two_pow ex ->
  exists m e, Prim2SF (x - y)%float = S754_finite false m e.
Proof.
  intros Hy Hlt.
  pose proof (valid_finite x _ _ _ Hx) as Hvx.
  destruct (bounded_facts mx ex Hvx) as (Hexr & _ & _).
  rewrite FloatAxioms.sub_spec, Hx. unfold SF64sub, SFsub.
  destruct Hy as [[s Hy]|(m & e & Hy & Hle)]; rewrite Hy.
  - eauto.
  - pose proof (valid_finite y _ _ _ Hy) as Hvy.
    destruct (bounded_facts m e Hvy) as (He & _ & _).
    set (e0 := Z.min ex e).
    assert (He0 : -1074 <= e0) by (subst e0; lia).
    pose proof (aligned mx ex e0 He0 ltac:(subst e0; lia)) as Ha.
    pose proof (aligned m e e0 He0 ltac:(subst e0; lia)) as Hb.
    cbn [cond_Zopp].
    set (a := fst (shl_align mx ex e0)) in *.
    set (b := fst (shl_align m e e0)) in *.
    pose proof (two_pow_pos e0 ltac:(unfold pow_offset; lia)) as HG0.
    pose proof (two_pow_mono (-1074) e0 ltac:(unfold pow_offset; lia) ltac:(lia)) as HG0m.
    assert (Hab : Zpos b < Zpos a) by nia.
    assert (Hmy : 0 < Zpos m * two_pow e).
    { pose proof (two_pow_pos e ltac:(unfold pow_offset; lia)). nia. }
    destruct (Z.pos a - Z.pos b) as [|p|p] eqn:Hsum; try lia.
    cbn [binary_normalize].
    assert (HV : Zpos p * two_pow e0 = Zpos mx * two_pow ex - Zpos m * two_pow e).
    { replace (Zpos p) with (Zpos a - Zpos b) by lia. lia. }
    assert (Hone : bounded prec emax 1 (-1074) = true) by reflexivity.
    pose proof (binary_round_sign false p e0 He0) as Hs.
    pose proof (binary_round_ge false p e0 1 (-1074) He0 Hone ltac:(nia)) as Hge.
    destruct (binary_round_le false p e0 mx ex He0 Hvx Hex
                ltac:(pose proof (two_pow_pos ex ltac:(unfold pow_offset; lia)); nia))
      as [Hfin Hmag].
    destruct (binary_round prec emax false p e0) as [s|s| |s m' e'];
      try discriminate; try contradiction. subst s.
    eauto.
Qed.

End SubPos.

Lemma val_finite x s m e : Prim2SF x = S754_finite s m e -> val x = Zpos m * two_pow e.
Proof. intros H. unfold val. now rewrite H. Qed.

Lemma val_zero x : fzero x -> val x = 0.
Proof. intros [s H]. unfold val. now rewrite H. Qed.

Lemma bounded_intro (m : positive) (e : Z) :
  2 ^ 52 <= Zpos m < 2 ^ 53 -> -1074 <= e <= 971 -> bounded prec emax m e = true.
Proof.
  intros Hm He. unfold bounded, canonical_mantissa.
  apply andb_true_iff. split.
  - apply Z.eqb_eq. rewrite fexp_eq.
    assert (Hd : Zdigits2 (Zpos m) = 53).
    { apply Z.le_antisymm.
      - apply Zdigits2_le; lia.
      - apply Zdigits2_ge; [lia | exact (proj1 Hm)]. }
    cbn [Zdigits2] in Hd. rewrite Hd. lia.
  - apply Z.leb_le. change (emax - prec) with 971. lia.
Qed.

Lemma normal_of_val (x : float) (m : positive) (e : Z) :
  Prim2SF x = S754_finite false m e ->
  two_pow (-1021) <= Zpos m * two_pow e ->
  2 ^ 52 <= Zpos m < 2 ^ 53 /\ -1073 <= e <= 971.
Proof.
  intros Hx Hv. pose proof (valid_finite x _ _ _ Hx) as Hb.
  destruct (bounded_facts m e Hb) as (He & Hm & Hn).
  destruct (Z.eq_dec e (-1074)) as [->|Hne].
  - exfalso.
    rewrite (two_pow_le (-1074) (-1021)) in Hv by (unfold pow_offset; lia).
    pose proof (two_pow_pos (-1074) ltac:(unfold pow_offset; lia)).
    change (2 ^ (-1021 - -1074)) with (2 ^ 53) in Hv. nia.
  - split; [split; [apply Hn|]|]; lia.
Qed.

Lemma exponent_le (m : positive) (e B : Z) :
  -1074 <= e -> -1074 <= B -> Zpos m * two_pow e < two_pow B -> e < B.
Proof.
  intros He HB Hv. apply two_pow_lt_inv; try (unfold pow_offset; lia).
  pose proof (two_pow_pos e ltac:(unfold pow_offset; lia)). nia.
Qed.

Lemma Prim2SF_half : Prim2SF 0.5 = S754_finite false 4503599627370496 (-53).
Proof. reflexivity. Qed.

Lemma Prim2SF_100 : Prim2SF 100 = S754_finite false 7036874417766400 (-46).
Proof. reflexivity. Qed.

Lemma val_100_lt : val 100 < two_pow 7.
Proof.
  unfold val. rewrite Prim2SF_100. cbn [mag].
  rewrite (two_pow_le (-46) 7) by (unfold pow_offset; lia).
  pose proof (two_pow_pos (-46) ltac:(unfold pow_offset; lia)).
  change (2 ^ (7 - -46)) with 9007199254740992. lia.
Qed.

(** Halving a normal number is exact. *)
Lemma half_exact (x : float) :
  fpos x -> two_pow (-1000) <= val x ->
  fpos (0.5 * x)%float /\ 2 * val (0.5 * x)%float = val x.
Proof.
  intros (m & e & Hx) Hv. rewrite (val_finite _ _ _ _ Hx) in *.
  assert (Hv' : two_pow (-1021) <= Zpos m * two_pow e).
  { etransitivity; [|exact Hv]. apply two_pow_mono; unfold pow_offset; lia. }
  destruct (normal_of_val x m e Hx Hv') as (Hm & He).
  assert (He' : -1073 < e).
  { destruct (Z_lt_le_dec (-1073) e) as [|Hle]; [assumption|exfalso].
    assert (e = -1073) by lia. subst e.
    rewrite (two_pow_le (-1073) (-1000)) in Hv by (unfold pow_offset; lia).
    pose proof (two_pow_pos (-1073) ltac:(unfold pow_offset; lia)).
    assert (2 ^ 53 <= 2 ^ (-1000 - -1073)) by (apply Z.pow_le_mono_r; lia).
    nia. }
  pose proof (pow2_mul_exact 0.5 x (-53) m e Prim2SF_half Hx (proj1 Hm) ltac:(lia)) as H.
  replace (e + -53 + 52) with (e - 1) in H by lia.
  split; [now exists m, (e - 1)|].
  rewrite (val_finite _ _ _ _ H).
  replace e with (e - 1 + 1) at 2 by lia.
  rewrite two_pow_succ by (unfold pow_offset; lia). lia.
Qed.

(** ** One panel *)

Section Panel.

Variables (d : Z) (a b : float).
Hypothesis Hd : 0 <= d <= 1000.
Hypothesis Hp : panel_ok d (a, b).

Lemma upper_normal :
  exists m e, Prim2SF b = S754_finite false m e
    /\ 2 ^ 52 <= Zpos m < 2 ^ 53 /\ -1073 < e < 7
    /\ two_pow (- d) <= Zpos m * two_pow e.
Proof.
  destruct Hp as (_ & (m & e & Hb) & [Hlo Hhi] & _). cbn [fst snd] in *.
  rewrite (val_finite _ _ _ _ Hb) in *.
  exists m, e. split; [exact Hb|].
  assert (Hv : two_pow (-1021) <= Zpos m * two_pow e).
  { etransitivity; [|exact Hlo]. apply two_pow_mono; unfold pow_offset; lia. }
  destruct (normal_of_val b m e Hb Hv) as (Hm & He).
  pose proof val_100_lt as H100.
  pose proof (exponent_le m e 7 ltac:(lia) ltac:(lia) ltac:(lia)) as He7.
  repeat split; try lia.
  destruct (Z_lt_le_dec (-1073) e) as [|Hle]; [assumption|exfalso].
  assert (e = -1073) by lia. subst e.
  assert (two_pow (-1000) <= Zpos m * two_pow (-1073)).
  { etransitivity; [|exact Hlo]. apply two_pow_mono; unfold pow_offset; lia. }
  rewrite (two_pow_le (-1073) (-1000)) in H by (unfold pow_offset; lia).
  pose proof (two_pow_pos (-1073) ltac:(unfold pow_offset; lia)).
  assert (2 ^ 53 <= 2 ^ (-1000 - -1073)) by (apply Z.pow_le_mono_r; lia).
  nia.
Qed.

Lemma sum_bounds :
  fpos (a + b)%float
  /\ val b <= val (a + b)%float <= 2 * val b
  /\ 2 * val a <= val (a + b)%float.
Proof.
  destruct upper_normal as (mb & eb & Hb & Hmb & Heb & Hlb).
  destruct Hp as (Ha & _ & [_ Hhi] & Hab). cbn [fst snd] in *.
  rewrite (val_finite _ _ _ _ Hb) in *.
  pose proof (two_pow_pos eb ltac:(unfold pow_offset; lia)) as Hgb.
  destruct Ha as [Hz|[(ma & ea & Ha) Hla]].
  - rewrite (val_zero _ Hz) in *. destruct Hz as [s Hz].
    assert (H : Prim2SF (a + b)%float = S754_finite false mb eb).
    { rewrite FloatAxioms.add_spec, Hz, Hb. reflexivity. }
    split; [now exists mb, eb|]. rewrite (val_finite _ _ _ _ H). lia.
  - rewrite (val_finite _ _ _ _ Ha) in *.
    assert (Hv : two_pow (-1021) <= Zpos ma * two_pow ea).
    { etransitivity; [|exact Hla]. apply two_pow_mono; unfold pow_offset; lia. }
    destruct (normal_of_val a ma ea Ha Hv) as (Hma & Hea).
    pose proof (two_pow_pos ea ltac:(unfold pow_offset; lia)) as Hga.
    pose proof val_100_lt as H100.
    pose proof (exponent_le ma ea 7 ltac:(lia) ltac:(lia) ltac:(lia)) as Hea7.
    pose proof (two_pow_succ eb ltac:(unfold pow_offset; lia)) as Hsb.
    pose proof (two_pow_succ ea ltac:(unfold pow_offset; lia)) as Hsa.
    destruct (add_pos_pos a b ma mb ea eb Ha Hb mb mb eb (eb + 1))
      as (m & e & H & Hlo1 & Hhi1);
      try (apply bounded_intro; lia); try lia.
    destruct (add_pos_pos a b ma mb ea eb Ha Hb ma mb (ea + 1) (eb + 1))
      as (m' & e' & H' & Hlo2 & _);
      try (apply bounded_intro; lia); try lia.
    rewrite H in H'. injection H' as <- <-.
    split; [now exists m, e|]. rewrite (val_finite _ _ _ _ H). lia.
Qed.

Lemma centre_bounds :
  fpos (0.5 * (a + b))%float
  /\ val b <= 2 * val (0.5 * (a + b))%float
  /\ val (0.5 * (a + b))%float <= val b
  /\ val a <= val (0.5 * (a + b))%float.
Proof.
  destruct sum_bounds as (Hs & [Hlo Hhi] & Ha).
  destruct upper_normal as (mb & eb & Hb & Hmb & Heb & Hlb).
  rewrite (val_finite _ _ _ _ Hb) in *.
  assert (Hv : two_pow (-1000) <= val (a + b)%float).
  { etransitivity; [|exact Hlo]. etransitivity; [|exact Hlb].
    apply two_pow_mono; unfold pow_offset; lia. }
  destruct (half_exact _ Hs Hv) as [Hc Hval].
  split; [exact Hc|]. lia.
Qed.

End Panel.

Lemma bisect_ok (d : Z) (p : float * float) (right : bool) :
  0 <= d <= 1000 -> panel_ok d p -> panel_ok (d + 1) (bisect p right).
Proof.
  intros Hd Hp. destruct p as [a b].
  destruct (centre_bounds d a b Hd Hp) as (Hc & Hlo & Hhi & Hac).
  destruct Hp as (Ha & Hb & [Hlb Hub] & Hab). cbn [fst snd] in *.
  assert (Hstep : 2 * two_pow (- (d + 1)) = two_pow (- d)).
  { rewrite <- two_pow_succ by (unfold pow_offset; lia). f_equal. lia. }
  pose proof (two_pow_pos (- (d + 1)) ltac:(unfold pow_offset; lia)) as Hg.
  destruct right; unfold bisect, centr, panel_ok; cbn [fst snd]; repeat split; try assumption; try lia.
  - right. split; [exact Hc | lia].
  - destruct Ha as [Hz|[Hpa Hla]]; [now left | right; split; [exact Hpa | lia]].
Qed.

Lemma subinterval_ok (path : list bool) (d : Z) (p : float * float) :
  0 <= d -> d + Z.of_nat (length path) <= 1000 ->
  panel_ok d p -> panel_ok (d + Z.of_nat (length path)) (subinterval path p).
Proof.
  revert d p. induction path as [|r path IH]; intros d p Hd Hlen Hp.
  - cbn [length subinterval fold_left]. now replace (d + Z.of_nat 0) with d by lia.
  - cbn [length] in *. unfold subinterval. cbn [fold_left]. fold (subinterval path (bisect p r)).
    replace (d + Z.of_nat (S (length path))) with (d + 1 + Z.of_nat (length path)) by lia.
    apply IH; [lia | lia |]. apply bisect_ok; [lia | exact Hp].
Qed.

Lemma root_ok : panel_ok 0 (0, 100)%float.
Proof.
  unfold panel_ok; cbn [fst snd]. split; [left; exists false; reflexivity|].
  split; [exists 7036874417766400%positive, (-46); reflexivity|].
  split; [|vm_compute; discriminate].
  split; [vm_compute; discriminate | lia].
Qed.

(** ** The abscissae of one panel *)

Lemma xgk_inner : forallb inner_abscissa xgk = true.
Proof. vm_compute. reflexivity. Qed.

(** A float just below a normal one. *)
Lemma float_below (m : positive) (e : Z) :
  2 ^ 52 <= Zpos m < 2 ^ 53 -> -1073 <= e <= 971 ->
  exists mb eb,
    bounded prec emax mb eb = true /\ eb <= e
    /\ 255 * (Zpos m * two_pow e) <= 256 * (Zpos mb * two_pow eb)
    /\ Zpos mb * two_pow eb < Zpos m * two_pow e.
Proof.
  intros Hm He.
  pose proof (two_pow_pos (e - 1) ltac:(unfold pow_offset; lia)) as Hg.
  pose proof (two_pow_succ (e - 1) ltac:(unfold pow_offset; lia)) as Hs.
  replace (e - 1 + 1) with e in Hs by lia.
  change (2 ^ 52) with 4503599627370496 in Hm.
  change (2 ^ 53) with 9007199254740992 in Hm.
  destruct (Z.eq_dec (Zpos m) 4503599627370496) as [Heq|Hne].
  - exists 9007199254740991%positive, (e - 1).
    split; [apply bounded_intro; [vm_compute; split; [discriminate | reflexivity] | lia]|].
    split; [lia|]. rewrite Heq, Hs. lia.
  - exists (Z.to_pos (Zpos m - 1)), e.
    assert (Hp : Zpos (Z.to_pos (Zpos m - 1)) = Zpos m - 1) by (apply Z2Pos.id; lia).
    split; [apply bounded_intro; [rewrite Hp; change (2 ^ 52) with 4503599627370496;
                                  change (2 ^ 53) with 9007199254740992; lia | lia]|].
    split; [lia|]. rewrite Hp, Hs. nia.
Qed.

Section PanelNodes.

Variables (d : Z) (a b : float).
Hypothesis Hd : 0 <= d <= 1000.
Hypothesis Hp : panel_ok d (a, b).

Lemma hlgth_bound : nn_le (hlgth (a, b)) (val (centr (a, b))).
Proof.
  destruct (centre_bounds d a b Hd Hp) as (_ & Hlo & _ & _).
  destruct (upper_normal d a b Hd Hp) as (mb & eb & Hb & Hmb & Heb & Hlb).
  unfold hlgth, centr in *; cbn [fst snd] in *.
  rewrite (val_finite _ _ _ _ Hb) in Hlo.
  pose proof (two_pow_pos (eb - 1) ltac:(unfold pow_offset; lia)) as Hg.
  pose proof (two_pow_succ (eb - 1) ltac:(unfold pow_offset; lia)) as Hs.
  replace (eb - 1 + 1) with eb in Hs by lia.
  assert (Hdiff : nn_le (b - a)%float (Zpos mb * two_pow eb)).
  { apply (sub_nn_le b mb eb Hb ltac:(lia)).
    destruct Hp as (Ha & _ & _ & Hab). cbn [fst snd] in *.
    rewrite (val_finite _ _ _ _ Hb) in Hab.
    destruct Ha as [Hz|[(ma & ea & Ha) _]]; [now left|].
    right. exists ma, ea. split; [exact Ha|]. now rewrite (val_finite _ _ _ _ Ha) in Hab. }
  assert (Hhalf : nn_le (0.5 * (b - a))%float (Zpos mb * two_pow (eb - 1))).
  { destruct Hdiff as [[s Hz]|(m & e & Hy & Hle)].
    - left. exists s. rewrite FloatAxioms.mul_spec, Prim2SF_half, Hz.
      destruct s; reflexivity.
    - assert (Hbd : bounded prec emax mb (eb - 1) = true) by (apply bounded_intro; lia).
      apply (mul_nn_le (b - a)%float (SF2Prim (S754_finite false mb (eb - 1)))
               m mb e (eb - 1) Hy
               (Prim2SF_SF2Prim (S754_finite false mb (eb - 1)) Hbd) ltac:(lia)
               0.5%float (4503599627370496 * two_pow (-53))).
      + right. exists 4503599627370496%positive, (-53). split; [reflexivity | lia].
      + assert (Hoff : 2 * (4503599627370496 * two_pow (-53)) = 2 ^ pow_offset)
          by (vm_compute; reflexivity).
        pose proof (pow2_pos pow_offset ltac:(unfold pow_offset; lia)) as Ho.
        set (O := 2 ^ pow_offset) in *. set (V := Zpos m * two_pow e) in *.
        set (B := Zpos mb * two_pow (eb - 1)) in *.
        set (H := 4503599627370496 * two_pow (-53)) in *.
        set (G := two_pow (eb - 1)) in *.
        assert (V <= 2 * B) by (subst B G; lia).
        replace (2 * (H * V)) with (O * V) by (subst O; rewrite <- Hoff; ring).
        nia. }
  destruct Hhalf as [Hz|(m & e & Hy & Hle)]; [now left | right].
  exists m, e. split; [exact Hy | lia].
Qed.

Lemma centr_normal :
  exists m e, Prim2SF (centr (a, b)) = S754_finite false m e
    /\ 2 ^ 52 <= Zpos m < 2 ^ 53 /\ -1073 <= e < 7.
Proof.
  destruct (centre_bounds d a b Hd Hp) as ((m & e & Hc) & Hlo & Hhi & _).
  destruct (upper_normal d a b Hd Hp) as (mb & eb & Hb & Hmb & Heb & Hlb).
  destruct Hp as (_ & _ & [_ Hub] & _). cbn [fst snd] in Hub.
  rewrite (val_finite _ _ _ _ Hc) in *. rewrite (val_finite _ _ _ _ Hb) in *.
  exists m, e. split; [exact Hc|].
  pose proof (two_pow_pos (-1021) ltac:(unfold pow_offset; lia)) as Hg.
  pose proof (two_pow_double (-1021) (- d) ltac:(unfold pow_offset; lia) ltac:(lia)) as Hdbl.
  destruct (normal_of_val _ m e Hc ltac:(lia)) as (Hm & He).
  pose proof val_100_lt as H100.
  pose proof (exponent_le m e 7 ltac:(lia) ltac:(lia) ltac:(lia)).
  repeat split; lia.
Qed.

Lemma absc_bound (xi : float) :
  inner_abscissa xi = true ->
  exists Y, nn_le (hlgth (a, b) * xi)%float Y /\ Y < val (centr (a, b)).
Proof.
  unfold inner_abscissa. intros Hxi.
  destruct (Prim2SF xi) as [ | | |[] mx ex] eqn:Hx; try discriminate.
  apply Z.leb_le in Hxi.
  destruct centr_normal as (m & e & Hc & Hm & He).
  destruct (float_below m e Hm ltac:(lia)) as (mb & eb & Hbd & Heb & Hnear & Hlt).
  exists (Zpos mb * two_pow eb). rewrite (val_finite _ _ _ _ Hc).
  split; [|exact Hlt].
  apply (mul_nn_le xi (SF2Prim (S754_finite false mb eb)) mx mb ex eb Hx
           (Prim2SF_SF2Prim (S754_finite false mb eb) Hbd) ltac:(lia)
           (hlgth (a, b)) (Zpos m * two_pow e)).
  - rewrite <- (val_finite _ _ _ _ Hc). exact hlgth_bound.
  - pose proof (valid_finite _ _ _ _ Hx) as Hvx.
    destruct (bounded_facts mx ex Hvx) as (Hex & _ & _).
    destruct (bounded_facts mb eb Hbd) as (Hebr & _ & _).
    pose proof (pow2_pos pow_offset ltac:(unfold pow_offset; lia)) as Ho.
    pose proof (two_pow_pos e ltac:(unfold pow_offset; lia)) as Hge.
    pose proof (two_pow_pos ex ltac:(unfold pow_offset; lia)) as Hgx.
    pose proof (two_pow_pos eb ltac:(unfold pow_offset; lia)) as Hgb.
    set (O := 2 ^ pow_offset) in *. set (X := Zpos mx * two_pow ex) in *.
    set (C := Zpos m * two_pow e) in *. set (Y := Zpos mb * two_pow eb) in *.
    set (G := two_pow eb) in *.
    assert (HC : 0 < C) by (subst C; nia).
    assert (H1 : C * (256 * X) <= C * (255 * O)) by (apply Z.mul_le_mono_nonneg_l; lia).
    assert (H2 : (255 * C) * O <= (256 * Y) * O) by (apply Z.mul_le_mono_nonneg_r; lia).
    assert (H3 : C * X <= Y * O) by lia.
    nia.
Qed.

Lemma dqk21_positive (x : float) : In x (dqk21_nodes (a, b)) -> fpos x.
Proof.
  destruct centr_normal as (m & e & Hc & Hm & He).
  pose proof (two_pow_pos e ltac:(unfold pow_offset; lia)) as Hge.
  intros [<-|Hin]; [now exists m, e|].
  apply List.in_flat_map in Hin. destruct Hin as (xi & Hxi & Hin).
  pose proof xgk_inner as Hall. rewrite List.forallb_forall in Hall.
  destruct (absc_bound xi (Hall xi Hxi)) as (Y & Habsc & HY).
  rewrite (val_finite _ _ _ _ Hc) in HY.
  destruct Hin as [<-|[<-|[]]].
  - exact (sub_pos _ m e Hc ltac:(lia) _ Y Habsc HY).
  - destruct Habsc as [[s Hz]|(m' & e' & Hy & Hle)].
    + exists m, e. rewrite FloatAxioms.add_spec, Hc, Hz. reflexivity.
    + pose proof (valid_finite _ _ _ _ Hy) as Hvy.
      destruct (bounded_facts m' e' Hvy) as (Hey & _ & _).
      pose proof (two_pow_pos e' ltac:(unfold pow_offset; lia)) as Hgy.
      pose proof (two_pow_mono (-1074) e ltac:(unfold pow_offset; lia) ltac:(lia)) as Hmono.
      pose proof (two_pow_succ e ltac:(unfold pow_offset; lia)) as Hs.
      destruct (add_pos_pos _ _ m m' e e' Hc Hy 1 m (-1074) (e + 1))
        as (m2 & e2 & H & _); try reflexivity; try lia; try nia.
      * apply bounded_intro; lia.
      * now exists m2, e2.
Qed.

End PanelNodes.

(** Every abscissa of every panel reached from [(0, 100)] by at most a
    thousand bisections is a positive number. *)
Lemma panel_nodes_positive (path : list bool) (x : float) :
  (length path <= 1000)%nat ->
  In x (dqk21_nodes (subinterval path (0, 100)%float)) -> fpos x.
Proof.
  intros Hlen Hin.
  pose proof (subinterval_ok path 0 (0, 100)%float ltac:(lia) ltac:(lia) root_ok) as Hok.
  destruct (subinterval path (0, 100)%float) as [a b].
  exact (dqk21_positive (0 + Z.of_nat (length path)) a b ltac:(lia) Hok x Hin).
Qed.

(** ** The integrand's divisor *)

Lemma fpos_positive (u : float) :
  fpos u -> (0 <? u)%float = true /\ (u <? infinity)%float = true.
Proof.
  intros (m & e & Hu).
  rewrite !FloatAxioms.ltb_spec, Prim2SF_zero, Hu. split; reflexivity.
Qed.

(** The divisor [i * u] of the integrand at a positive frequency has
    imaginary part [u]. *)
Lemma divisor_imaginary_part (u : float) :
  fpos u -> im (Cx 0 1 * cplx u)%cx = u.
Proof.
  intros (m & e & Hu).
  unfold Complex.mul, Complex.of_real; cbn [re im].
  rewrite (float_one_mul u m e Hu).
  change (0 * 0)%float with 0%float.
  exact (float_zero_add u m e Hu).
Qed.

(** The one-panel midpoint rule evaluates at the centre of the whole
    interval. *)
Lemma midpoint_gauss_kronrod : gauss_kronrod midpoint_integrator.
Proof.
  intros f a b limit epsabs epsrel. unfold midpoint_integrator.
  cbn [run_quadpack q_nodes].
  constructor; [|constructor].
  exists []. split; [cbn [length]; lia | now left].
Qed.

Context (np : NumPy) (qp : Integrator).

(** C8.  With an integrator that evaluates the integrand at the
    abscissae of QUADPACK's 21-point Gauss-Kronrod rule on panels
    bisected from the interval it is given, the integrand is never
    evaluated at [u = 0] during the pricing of any sample: every
    frequency handed to [heston_integrand] on the interval [(0, 100)]
    with [limit = 100] that [heston_call_price] passes is a strictly
    positive finite number, and the divisor [i * u] the integrand forms
    for it has imaginary part [u], so it is not the complex zero. *)
Theorem integrand_never_at_zero :
  gauss_kronrod qp ->
  (forall S0 K t r kappa theta sigma rho v0,
      Forall (fun u => (0 <? u)%float = true /\ (u <? infinity)%float = true
                       /\ im (Cx 0 1 * cplx u)%cx = u
                       /\ (Cx 0 1 * cplx u)%cx <> Cx 0 0)
        (heston_call_price_nodes np qp S0 K t r kappa theta sigma rho v0))
  /\ (forall param_sets params,
         In params param_sets ->
         Forall (fun u => (0 <? u)%float = true) (sample_nodes np qp params)).
Proof.
  intros Hgk.
  assert (Hnodes : forall S0 K t r kappa theta sigma rho v0,
             Forall fpos
               (heston_call_price_nodes np qp S0 K t r kappa theta sigma rho v0)).
  { intros. unfold heston_call_price_nodes.
    eapply List.Forall_impl; [|apply Hgk].
    intros u (path & Hlen & Hin). cbv beta in *.
    change (Z.to_nat 100) with 100%nat in Hlen.
    apply (panel_nodes_positive path); [lia | exact Hin]. }
  split.
  - intros. eapply List.Forall_impl; [|apply Hnodes].
    intros u Hu. cbv beta.
    destruct (fpos_positive u Hu) as [H0 H1].
    pose proof (divisor_imaginary_part u Hu) as Him.
    repeat split; try assumption.
    intros Hz. rewrite Hz in Him. cbn [im] in Him. subst u. discriminate.
  - intros param_sets [m tau r rho kappa theta sigma v0] _.
    unfold sample_nodes.
    eapply List.Forall_impl; [|apply Hnodes].
    intros u Hu. exact (proj1 (fpos_positive u Hu)).
Qed.

End Nodes.

(** The hypothesis of [integrand_never_at_zero] holds of the one-panel
    midpoint rule, which evaluates the integrand at [50]. *)
Lemma integrand_never_at_zero_witness :
  gauss_kronrod midpoint_integrator
  /\ Forall (fun u => (0 <? u)%float = true)
       (sample_nodes np_nan midpoint_integrator
          (Vec8 1 1 0.05 (-0.7) 1.5 0.04 0.3 0.04)).
Proof.
  split; [exact midpoint_gauss_kronrod|].
  apply (integrand_never_at_zero np_nan midpoint_integrator
           midpoint_gauss_kronrod)
    with (param_sets := [Vec8 1 1 0.05 (-0.7) 1.5 0.04 0.3 0.04]%float).
  now left.
Defined.

(** * Further properties of the code *)

(** ** filter.py: chunks, reruns and the mask *)

Section FilterExtras.

(** The script's loop over any chunks. *)
Lemma filter_script_chunks (old : list line) (chunks : list (list row)) :
  chunks <> [] ->
  let st := filter_script old chunks in
  output_file st = HeaderLine :: map RowLine (List.filter keep (concat chunks))
  /\ header st = false
  /\ total_filtered st = Z.of_nat (length (List.filter keep (concat chunks))).
Proof.
  intros Hne st.
  destruct (filter_step_fold chunks
              {| output_file := old; header := true; total_filtered := 0 |})
    as [Htot Hout].
  cbn zeta in Htot, Hout. fold (filter_script old chunks) in Htot, Hout.
  fold st in Htot, Hout. cbn [header total_filtered] in Htot, Hout.
  split; [|split].
  - rewrite Hout. destruct chunks; [congruence | reflexivity].
  - subst st. unfold filter_script.
    destruct chunks as [|c cs]; [congruence|]. cbn [fold_left].
    clear Hne Htot Hout.
    assert (Hs : header (filter_step
                  {| output_file := old; header := true; total_filtered := 0 |} c)
                 = false) by reflexivity.
    revert Hs. generalize (filter_step
                  {| output_file := old; header := true; total_filtered := 0 |} c).
    induction cs as [|c' cs IH]; intros s Hs; cbn [fold_left]; [exact Hs|].
    apply IH. reflexivity.
  - rewrite Htot. lia.
Qed.

Lemma read_csv_any (n : Z) (rows : list row) :
  (0 < n)%Z -> concat (read_csv n rows) = rows /\ read_csv n rows <> [].
Proof.
  intros Hn. split.
  - apply chunks_of_concat; lia.
  - unfold read_csv. cbn [chunks_of]. discriminate.
Qed.

Lemma filter_idempotent {A} (f : A -> bool) (l : list A) :
  List.filter f (List.filter f l) = List.filter f l.
Proof.
  induction l as [|x l IH]; [reflexivity|].
  cbn [List.filter]. destruct (f x) eqn:E; [|exact IH].
  cbn [List.filter]. now rewrite E, IH.
Qed.

(** X1.  The chunk size does not matter, nor does what the output file
    held before: for every positive chunk size the script leaves the
    same output file, one header line followed by the input rows that
    pass the mask in their input order, and reports the same total, the
    number of those rows. *)
Theorem filter_chunksize_irrelevant (n1 n2 : Z) (old1 old2 : list line)
    (rows : list row) :
  (0 < n1)%Z -> (0 < n2)%Z ->
  let st1 := filter_script old1 (read_csv n1 rows) in
  let st2 := filter_script old2 (read_csv n2 rows) in
  output_file st1 = HeaderLine :: map RowLine (List.filter keep rows)
  /\ output_file st1 = output_file st2
  /\ total_filtered st1 = total_filtered st2
  /\ total_filtered st1 = Z.of_nat (length (List.filter keep rows)).
Proof.
  intros H1 H2 st1 st2.
  destruct (read_csv_any n1 rows H1) as [Hc1 Hn1].
  destruct (read_csv_any n2 rows H2) as [Hc2 Hn2].
  destruct (filter_script_chunks old1 _ Hn1) as (Ho1 & _ & Ht1).
  destruct (filter_script_chunks old2 _ Hn2) as (Ho2 & _ & Ht2).
  fold st1 in Ho1, Ht1. fold st2 in Ho2, Ht2.
  rewrite Hc1 in Ho1, Ht1. rewrite Hc2 in Ho2, Ht2.
  repeat split; congruence.
Qed.

(** The hypotheses of [filter_chunksize_irrelevant] hold of the chunk
    sizes 1 and 2. *)
Lemma filter_chunksize_irrelevant_witness :
  (0 < 1)%Z /\ (0 < 2)%Z
  /\ output_file (filter_script [] (read_csv 1 three_rows))
     = output_file (filter_script [HeaderLine] (read_csv 2 three_rows)).
Proof.
  split; [lia|]. split; [lia|].
  exact (proj1 (proj2 (filter_chunksize_irrelevant 1 2 [] [HeaderLine] three_rows
                         ltac:(lia) ltac:(lia)))).
Defined.

(** X2.  The script is idempotent: run on the rows of its own output
    file, it writes the same file again and reports the same total. *)
Theorem filter_script_idempotent (old old' : list line) (rows : list row) :
  let st := filter_script old (read_csv chunksize rows) in
  let st' := filter_script old' (read_csv chunksize (rows_of (output_file st))) in
  output_file st' = output_file st
  /\ total_filtered st' = total_filtered st.
Proof.
  intros st st'.
  assert (Hcs : (0 < chunksize)%Z) by (unfold chunksize; lia).
  destruct (read_csv_any chunksize rows Hcs) as [Hc Hn].
  destruct (filter_script_chunks old _ Hn) as (Ho & _ & Ht).
  fold st in Ho, Ht. rewrite Hc in Ho, Ht.
  assert (Hrows : rows_of (output_file st) = List.filter keep rows).
  { rewrite Ho. cbn. apply rows_of_map_RowLine. }
  destruct (read_csv_any chunksize (rows_of (output_file st)) Hcs) as [Hc' Hn'].
  destruct (filter_script_chunks old' _ Hn') as (Ho' & _ & Ht').
  fold st' in Ho', Ht'. rewrite Hc', Hrows, filter_idempotent in Ho', Ht'.
  split; congruence.
Qed.

#[local] Open Scope float_scope.

(** A number strictly between two positive binary64 numbers. *)
Lemma ltb_between (x lo hi : float) (ml mh : positive) (el eh : Z) :
  Prim2SF lo = S754_finite false ml el ->
  Prim2SF hi = S754_finite false mh eh ->
  (lo <? x) && (x <? hi) = true
  <-> exists m e,
        Prim2SF x = S754_finite false m e
        /\ (Zpos ml * two_pow el < Zpos m * two_pow e < Zpos mh * two_pow eh)%Z.
Proof.
  intros Hlo Hhi.
  pose proof (valid_finite lo _ _ _ Hlo) as Hvl.
  pose proof (valid_finite hi _ _ _ Hhi) as Hvh.
  rewrite andb_true_iff, !FloatAxioms.ltb_spec, Hlo, Hhi. unfold SFltb.
  split.
  - intros [H0 H1].
    destruct (Prim2SF x) as [s|[]| |[] m e] eqn:Hp; try discriminate.
    exists m, e. split; [reflexivity|].
    pose proof (valid_finite x _ _ _ Hp) as Hv.
    rewrite (SFcompare_pos ml el m e Hvl Hv) in H0.
    rewrite (SFcompare_pos m e mh eh Hv Hvh) in H1.
    destruct (Z.compare_spec (Zpos ml * two_pow el) (Zpos m * two_pow e));
      try discriminate.
    destruct (Z.compare_spec (Zpos m * two_pow e) (Zpos mh * two_pow eh));
      try discriminate.
    lia.
  - intros (m & e & Hp & Hl & Hh).
    pose proof (valid_finite x _ _ _ Hp) as Hv.
    rewrite Hp, (SFcompare_pos ml el m e Hvl Hv), (SFcompare_pos m e mh eh Hv Hvh).
    apply Z.compare_lt_iff in Hl, Hh. now rewrite Hl, Hh.
Qed.

(** X3.  The mask keeps a row exactly when its moneyness is a finite
    number strictly between the binary64 numbers written [0.6] and
    [1.4], and its initial variance one strictly between those written
    [0.05] and [0.5].  A row whose moneyness or initial variance is NaN
    or an infinity is dropped, and so is a row that sits exactly on one
    of the four bounds. *)
Theorem keep_value (r : row) :
  (keep r = true
   <-> (exists m e,
          Prim2SF (moneyness r) = S754_finite false m e
          /\ (5404319552844595 * two_pow (-53) < Zpos m * two_pow e
              < 6305039478318694 * two_pow (-52))%Z)
       /\ (exists m e,
             Prim2SF (initial_variance r) = S754_finite false m e
             /\ (7205759403792794 * two_pow (-57) < Zpos m * two_pow e
                 < 4503599627370496 * two_pow (-53))%Z))
  /\ (is_finite (moneyness r) = false -> keep r = false)
  /\ (is_finite (initial_variance r) = false -> keep r = false)
  /\ (forall v o,
        keep {| moneyness := 0.6; initial_variance := v; other_columns := o |} = false
        /\ keep {| moneyness := 1.4; initial_variance := v; other_columns := o |} = false)
  /\ (forall m o,
        keep {| moneyness := m; initial_variance := 0.05; other_columns := o |} = false
        /\ keep {| moneyness := m; initial_variance := 0.5; other_columns := o |} = false).
Proof.
  assert (Hiff : keep r = true
   <-> (exists m e,
          Prim2SF (moneyness r) = S754_finite false m e
          /\ (5404319552844595 * two_pow (-53) < Zpos m * two_pow e
              < 6305039478318694 * two_pow (-52))%Z)
       /\ (exists m e,
             Prim2SF (initial_variance r) = S754_finite false m e
             /\ (7205759403792794 * two_pow (-57) < Zpos m * two_pow e
                 < 4503599627370496 * two_pow (-53))%Z)).
  { unfold keep. rewrite <- andb_assoc, andb_true_iff.
    rewrite (ltb_between (moneyness r) 0.6 1.4 _ _ _ _ eq_refl eq_refl).
    rewrite (ltb_between (initial_variance r) 0.05 0.5 _ _ _ _ eq_refl eq_refl).
    reflexivity. }
  split; [exact Hiff|].
  split; [|split; [|split]].
  - intros Hnf. pose proof (proj1 Hiff) as Himp.
    destruct (keep r); [|reflexivity].
    destruct (Himp eq_refl) as [(m & e & Hp & _) _].
    rewrite is_finite_spec, Hp in Hnf. discriminate.
  - intros Hnf. pose proof (proj1 Hiff) as Himp.
    destruct (keep r); [|reflexivity].
    destruct (Himp eq_refl) as [_ (m & e & Hp & _)].
    rewrite is_finite_spec, Hp in Hnf. discriminate.
  - intros v o. split; reflexivity.
  - intros m o. unfold keep; cbn [moneyness initial_variance].
    change (0.05 <? 0.05) with false. change (0.5 <? 0.5) with false.
    now rewrite !andb_false_r.
Qed.

End FilterExtras.

(** ** fourier.py: the batch loop *)

Section MainExtras.

Context (np : NumPy) (qp : Integrator).

Lemma main_step_printed (idxs : list Z) (l : list vec8) (st : loop_state) :
  length idxs = length l ->
  printed (fold_left (main_step np qp) (combine idxs l) st)
  = printed st
    ++ List.filter (fun j => (j mod 10 =? 0)%Z) (map (fun i => (i + 1)%Z) idxs).
Proof.
  revert idxs st.
  induction l as [|p l IH]; intros [|i idxs] st Hlen; try discriminate.
  - cbn. now rewrite app_nil_r.
  - cbn [combine fold_left map List.filter].
    injection Hlen as Hlen. rewrite (IH idxs _ Hlen). clear IH.
    destruct p as [m tau r rho kappa theta sigma v0].
    unfold main_step; cbn [printed].
    destruct ((i + 1) mod 10 =? 0)%Z; [now rewrite <- app_assoc | reflexivity].
Qed.

Lemma multiples_of_ten (n : nat) :
  List.filter (fun j => (j mod 10 =? 0)%Z) (map Z.of_nat (seq 1 n))
  = map (fun k => (10 * Z.of_nat k)%Z) (seq 1 (n / 10)).
Proof.
  induction n as [|n IH]; [reflexivity|].
  rewrite seq_S, map_app, List.filter_app, IH. cbn [map List.filter].
  replace (1 + n)%nat with (S n) by lia.
  pose proof (Nat.div_mod_eq (S n) 10) as D1.
  pose proof (Nat.div_mod_eq n 10) as D2.
  pose proof (Nat.mod_upper_bound n 10 ltac:(lia)) as B2.
  pose proof (Nat.mod_upper_bound (S n) 10 ltac:(lia)) as B1.
  pose proof (Nat2Z.inj_mod (S n) 10) as HZ. change (Z.of_nat 10) with 10%Z in HZ.
  destruct (Z.of_nat (S n) mod 10 =? 0)%Z eqn:E.
  - apply Z.eqb_eq in E.
    assert (Hq : (S n / 10 = S (n / 10))%nat) by lia.
    rewrite Hq, seq_S, map_app. cbn [map]. f_equal. f_equal. lia.
  - apply Z.eqb_neq in E. rewrite app_nil_r. f_equal. f_equal. lia.
Qed.

(** X4.  The progress lines of [main]: over a batch of [n] samples it
    prints one line after every tenth sample and no other, that is the
    counts [10, 20, ..., 10 * (n / 10)] in this order, whatever the
    prices are. *)
Theorem main_progress_lines (param_sets : list vec8) :
  printed (main_loop np qp param_sets)
  = map (fun k => (10 * Z.of_nat k)%Z) (seq 1 (length param_sets / 10)).
Proof.
  unfold main_loop, enumerate.
  rewrite main_step_printed by now rewrite length_map, length_seq.
  cbn [printed app]. rewrite map_map.
  rewrite <- multiples_of_ten. f_equal.
  rewrite <- seq_shift, map_map. apply map_ext. intros k. lia.
Qed.

End MainExtras.

Section BatchExtras.

Context (np : NumPy) (qp : Integrator) (lhs_random : Z -> list vec8).

#[local] Open Scope float_scope.

Lemma filter_length_le {A} (f : A -> bool) (l : list A) :
  (length (List.filter f l) <= length l)%nat.
Proof.
  induction l as [|x l IH]; cbn [List.filter length]; [lia|].
  destruct (f x); cbn [length]; lia.
Qed.

(** X5.  What [main] leaves in [Fourier_Prices.csv] when it is given a
    count [N >= 0] and the sampler draws from the unit cube: the nine
    column names, then at most one row per draw; every row has nine
    fields, as many as the header, and is a sample the sampler
    returned, with every parameter in its range, followed by its price,
    which passed the filter. *)
Theorem main_writes_sampled_rows (N : Z) (files : gmap string csv_file) :
  (0 <= N)%Z ->
  Forall unit_cube (lhs_random N) ->
  exists f,
    snd (main np qp lhs_random N files) !! "Fourier_Prices.csv"%string = Some f
    /\ csv_header f
       = ["moneyness"; "tau"; "r"; "rho"; "kappa"; "theta"; "sigma";
          "initial_variance"; "option_price"]%string
    /\ (length (csv_rows f) <= length (lhs_random N))%nat
    /\ Forall (fun row =>
                 length row = length (csv_header f)
                 /\ exists p,
                      In p (generate_lhs_samples lhs_random N)
                      /\ in_ranges p
                      /\ accept (sample_price np qp p) = true
                      /\ row = kept_row p (sample_price np qp p))
         (csv_rows f).
Proof.
  intros HN Hcube. unfold main.
  replace (N <? 0)%Z with false by (symmetry; apply Z.ltb_ge; lia).
  cbn [snd]. unfold save_to_csv.
  rewrite lookup_insert_eq. eexists. split; [reflexivity|].
  cbn [csv_header csv_rows]. split; [reflexivity|].
  rewrite main_loop_spec, generate_lhs_samples_rows.
  split.
  - rewrite length_map. etransitivity; [apply filter_length_le|].
    now rewrite length_map.
  - apply List.Forall_forall. intros row Hrow.
    apply List.in_map_iff in Hrow. destruct Hrow as (p & <- & Hp).
    apply List.filter_In in Hp. destruct Hp as [Hin Hacc].
    split; [reflexivity|]. exists p.
    split; [exact Hin|]. split; [|split; [exact Hacc | reflexivity]].
    apply List.in_map_iff in Hin. destruct Hin as (u & <- & Hu).
    apply scale_row_in_ranges.
    rewrite List.Forall_forall in Hcube. now apply Hcube.
Qed.

Lemma mul_nonfinite (c x : float) (m : positive) (e : Z) :
  Prim2SF c = S754_finite false m e ->
  SFnonfinite (Prim2SF x) = true -> SFnonfinite (Prim2SF (c * x)) = true.
Proof.
  intros Hc Hx. rewrite FloatAxioms.mul_spec, Hc.
  destruct (Prim2SF x) as [s|[]| |[] mx ex]; try discriminate; reflexivity.
Qed.

Lemma price_nonfinite (S0 x : float) :
  is_finite x = false -> is_finite (S0 * 0.5 + (1 / np_pi) * x) = false.
Proof.
  rewrite !is_finite_spec. intros Hx.
  apply negb_false_iff in Hx. apply negb_false_iff.
  apply nonfinite_add_r.
  now apply (mul_nonfinite (1 / np_pi) x 5734161139222659 (-54) eq_refl).
Qed.

Lemma sample_price_integral (p : vec8) :
  sample_price np qp p = main_S0 * 0.5 + (1 / np_pi) * sample_integral np qp p.
Proof. destruct p. reflexivity. Qed.

(** X6.  An integral estimate that is NaN or an infinity never reaches
    the output: whatever [S0] is, the price [S0 * 0.5 + (1 / pi) * x]
    formed from such an estimate [x] is rejected by the filter of
    [main], so every row [main] keeps comes from a sample whose
    integral estimate is finite. *)
Theorem nonfinite_integral_rejected :
  (forall S0 x, is_finite x = false -> accept (S0 * 0.5 + (1 / np_pi) * x) = false)
  /\ (forall p, is_finite (sample_integral np qp p) = false ->
                accept (sample_price np qp p) = false)
  /\ (forall param_sets row,
        In row (result_data (main_loop np qp param_sets)) ->
        exists p, In p param_sets
                  /\ row = kept_row p (sample_price np qp p)
                  /\ is_finite (sample_integral np qp p) = true).
Proof.
  assert (H1 : forall S0 x, is_finite x = false
                            -> accept (S0 * 0.5 + (1 / np_pi) * x) = false).
  { intros S0 x Hx. pose proof (price_nonfinite S0 x Hx) as Hp.
    destruct (accept _) eqn:E; [|reflexivity].
    apply accept_finite in E. congruence. }
  split; [exact H1|]. split.
  - intros p Hp. rewrite sample_price_integral. now apply H1.
  - intros ps row Hrow.
    rewrite main_loop_spec in Hrow.
    apply List.in_map_iff in Hrow. destruct Hrow as (p & <- & Hp).
    apply List.filter_In in Hp. destruct Hp as [Hin Hacc].
    exists p. repeat split; try assumption.
    destruct (is_finite (sample_integral np qp p)) eqn:E; [reflexivity|].
    rewrite sample_price_integral, H1 in Hacc by exact E. discriminate.
Qed.

End BatchExtras.

(** The hypotheses of [main_writes_sampled_rows] hold of the count 2
    and a sampler that returns [two_draws]; with an integrator that
    answers [0.3], the price of both samples passes the filter and the
    file holds two rows of nine fields. *)
Lemma main_writes_sampled_rows_witness :
  (0 <= 2)%Z /\ Forall unit_cube two_draws
  /\ exists f,
       snd (main np_nan (fixed_integrator Converged) (fun _ => two_draws) 2 ∅)
         !! "Fourier_Prices.csv"%string = Some f
       /\ length (csv_rows f) = 2%nat
       /\ Forall (fun row => length row = 9%nat) (csv_rows f).
Proof.
  assert (Hcube : Forall unit_cube two_draws) by (unfold two_draws; repeat constructor).
  split; [lia|]. split; [exact Hcube|].
  destruct (main_writes_sampled_rows np_nan (fixed_integrator Converged)
              (fun _ => two_draws) 2 ∅ ltac:(lia) Hcube)
    as (f & Hf & Hh & _ & Hrows).
  exists f. split; [exact Hf|]. split.
  - unfold main in Hf. cbn [Z.ltb Z.compare snd] in Hf. unfold save_to_csv in Hf.
    rewrite lookup_insert_eq in Hf. injection Hf as <-. reflexivity.
  - eapply List.Forall_impl; [|exact Hrows].
    intros row [Hlen _]. rewrite Hlen, Hh. reflexivity.
Defined.

(** ** fourier.py: the integrand off the positive axis *)

Section FrequencyExtras.

Context (np : NumPy) (qp : Integrator).

#[local] Open Scope float_scope.

(** X7.  The price depends on the integrand at strictly positive
    frequencies only.  With an integrator that evaluates at the
    abscissae of the 21-point rule on bisected panels, replacing the
    integrand by any function that agrees with it wherever [0 < u]
    leaves the whole run of the integrator, hence the estimate, the
    error bound, the status and the price, unchanged: what the
    integrand does at [u = 0], where it divides by zero, plays no
    part. *)
Theorem price_from_positive_frequencies
    (g : float -> float) (S0 K t r kappa theta sigma rho v0 : float) :
  gauss_kronrod qp ->
  (forall u, (0 <? u) = true ->
             g u = heston_integrand np u S0 K t r kappa theta sigma rho v0) ->
  let integrand := fun u => heston_integrand np u S0 K t r kappa theta sigma rho v0 in
  run_quadpack g (qp 0 100 100%Z 1e-8 1e-8)
  = run_quadpack integrand (qp 0 100 100%Z 1e-8 1e-8)
  /\ quad qp g 0 100 100%Z 1e-8 1e-8 = quad qp integrand 0 100 100%Z 1e-8 1e-8
  /\ heston_call_price np qp S0 K t r kappa theta sigma rho v0
     = S0 * 0.5 + (1 / np_pi) * fst (quad qp g 0 100 100%Z 1e-8 1e-8).
Proof.
  intros Hgk Hg integrand.
  assert (Hrun : run_quadpack g (qp 0 100 100%Z 1e-8 1e-8)
                 = run_quadpack integrand (qp 0 100 100%Z 1e-8 1e-8)).
  { apply run_quadpack_ext.
    eapply List.Forall_impl; [|apply Hgk].
    intros u (path & Hlen & Hin). cbv beta.
    change (Z.to_nat 100) with 100%nat in Hlen.
    apply Hg. apply fpos_positive.
    apply (panel_nodes_positive path); [lia | exact Hin]. }
  split; [exact Hrun|].
  assert (Hquad : quad qp g 0 100 100%Z 1e-8 1e-8
                  = quad qp integrand 0 100 100%Z 1e-8 1e-8).
  { unfold quad. now rewrite Hrun. }
  split; [exact Hquad|]. rewrite Hquad. reflexivity.
Qed.

End FrequencyExtras.

(** The hypotheses of [price_from_positive_frequencies] hold of the
    one-panel midpoint rule and of the integrand guarded by a
    sentinel. *)
Lemma price_from_positive_frequencies_witness :
  gauss_kronrod midpoint_integrator
  /\ heston_call_price np_nan midpoint_integrator 1 1 1 0.05 1.5 0.04 0.3 (-0.7) 0.04
     = (1 * 0.5
        + (1 / np_pi)
          * fst (quad midpoint_integrator (guarded_integrand np_nan)
                   0 100 100%Z 1e-8 1e-8))%float.
Proof.
  split; [exact midpoint_gauss_kronrod|].
  apply (price_from_positive_frequencies np_nan midpoint_integrator
           (guarded_integrand np_nan) 1 1 1 0.05 1.5 0.04 0.3 (-0.7) 0.04
           midpoint_gauss_kronrod).
  intros u Hu. unfold guarded_integrand. now rewrite Hu.
Defined.

(** ** fourier.py: underflow of [sigma ** 2] *)

Section Underflow.

#[local] Open Scope Z_scope.

(** A product below half the smallest positive number rounds to zero. *)
Lemma round_to_zero (s : bool) (P E : Z) :
  0 < P -> - pow_offset <= E ->
  P * two_pow E <= two_pow (-1076) ->
  binary_round_aux prec emax s P E loc_Exact = S754_zero s.
Proof.
  intros HP HE Hv.
  destruct (binary_round_aux_spec s P E HP)
    as [[k q R M Hk Hdiv Hrem Hq Hqge Hexp Hc Hdn Hup Hex] ->].
  cbn [rnd_k rnd_M].
  assert (Hk0 : 0 <= k) by lia.
  pose proof (pow2_pos k Hk0) as HT.
  pose proof (two_pow_pos E HE) as HGE.
  assert (HG1 : two_pow (E + k) = 2 ^ k * two_pow E) by (apply two_pow_add; lia).
  pose proof (two_pow_double (-1076) (-1075) ltac:(unfold pow_offset; lia) ltac:(lia)) as Ha.
  pose proof (two_pow_double (-1075) (-1074) ltac:(unfold pow_offset; lia) ltac:(lia)) as Hb.
  pose proof (two_pow_mono (-1074) (E + k) ltac:(unfold pow_offset; lia) Hexp) as Hc2.
  pose proof (two_pow_pos (-1076) ltac:(unfold pow_offset; lia)) as Hpos.
  set (G1 := two_pow (E + k)) in *. set (GE := two_pow E) in *. set (T := 2 ^ k) in *.
  assert (HV : P * GE = q * G1 + R * GE) by (rewrite Hdiv, HG1; ring).
  assert (HRG : 0 <= R * GE) by (apply Z.mul_nonneg_nonneg; lia).
  assert (Hq0 : q = 0).
  { destruct (Z.eq_dec q 0) as [|Hne]; [assumption|exfalso].
    assert (1 * G1 <= q * G1) by (apply Z.mul_le_mono_nonneg_r; lia). lia. }
  assert (HM : M = 0).
  { destruct Hc as [->|HM1]; [exact Hq0|exfalso].
    specialize (Hup HM1).
    assert (T * GE <= (2 * R) * GE) by (apply Z.mul_le_mono_nonneg_r; lia).
    subst q. lia. }
  unfold rounded. now rewrite HM.
Qed.

#[local] Open Scope float_scope.

Lemma square_underflow (x : float) :
  (abs x <=? 0x1p-538) = true -> fpow2 x = 0.
Proof.
  rewrite FloatAxioms.leb_spec, FloatAxioms.abs_spec.
  change (Prim2SF 0x1p-538) with (S754_finite false 4503599627370496 (-590)).
  intros Hle. apply Prim2SF_inj. unfold fpow2.
  rewrite FloatAxioms.mul_spec.
  destruct (Prim2SF x) as [s|s| |s m e] eqn:Hx; try discriminate.
  - now destruct s.
  - pose proof (valid_finite x _ _ _ Hx) as Hv.
    destruct (bounded_facts m e Hv) as (He & _ & _).
    cbn [SFabs] in Hle. unfold SFleb in Hle.
    rewrite (SFcompare_pos m e 4503599627370496 (-590) Hv eq_refl) in Hle.
    assert (Hmag : (Zpos m * two_pow e <= two_pow (-538))%Z).
    { rewrite (two_pow_le (-590) (-538)) by (unfold pow_offset; lia).
      change (2 ^ (-538 - -590))%Z with 4503599627370496%Z.
      destruct (Z.compare_spec (Zpos m * two_pow e)
                  (4503599627370496 * two_pow (-590))); try discriminate; lia. }
    unfold SF64mul, SFmul. rewrite xorb_nilpotent.
    change (Prim2SF 0) with (S754_zero false).
    apply round_to_zero; [lia | unfold pow_offset; lia |].
    pose proof (two_pow_pos e ltac:(unfold pow_offset; lia)) as Hg.
    pose proof (two_pow_pos (-538) ltac:(unfold pow_offset; lia)) as Hg'.
    pose proof (pow2_pos pow_offset ltac:(unfold pow_offset; lia)) as Ho.
    pose proof (two_pow_mul e e ltac:(unfold pow_offset; lia)
                  ltac:(unfold pow_offset; lia) ltac:(unfold pow_offset; lia)) as Hee.
    pose proof (two_pow_mul (-538) (-538) ltac:(unfold pow_offset; lia)
                  ltac:(unfold pow_offset; lia) ltac:(unfold pow_offset; lia)) as Hss.
    change (-538 + -538)%Z with (-1076)%Z in Hss.
    rewrite Pos2Z.inj_mul.
    set (A := (Zpos m * two_pow e)%Z) in *. set (S := two_pow (-538)) in *.
    assert (HA : (0 < A)%Z) by (subst A; apply Z.mul_pos_pos; lia).
    assert (Hsq : (A * A <= S * S)%Z) by (apply Z.mul_le_mono_nonneg; lia).
    assert (Heq : (Zpos m * Zpos m * two_pow (e + e) * 2 ^ pow_offset = A * A)%Z).
    { subst A. rewrite <- Z.mul_assoc, Hee. ring. }
    apply (Z.mul_le_mono_pos_r _ _ (2 ^ pow_offset)%Z Ho). lia.
Qed.

Lemma div_zero_infinity (a : float) : (0 <? a) = true -> is_finite a = true -> a / 0 = infinity.
Proof.
  rewrite FloatAxioms.ltb_spec, is_finite_spec. change (Prim2SF 0) with (S754_zero false).
  intros Hp Hf. apply Prim2SF_inj. rewrite FloatAxioms.div_spec.
  change (Prim2SF 0) with (S754_zero false).
  destruct (Prim2SF a) as [s|[]| |[] m e]; try discriminate; reflexivity.
Qed.

Context (np : NumPy).

(** X9.  The division by [sigma ** 2] fails for small [sigma], not
    only for [sigma = 0]: when [|sigma| <= 2 ^ -538] the square
    underflows to zero, so the coefficient [kappa * theta / sigma ** 2]
    is NaN or an infinity ([+inf] when [kappa * theta] is a positive
    number), and the real part of the exponent that
    [heston_char_function] hands to [np.exp] is NaN or an infinity, at
    every frequency. *)
Theorem sigma_square_underflow (u t S0 r kappa theta sigma rho v0 : float) :
  (abs sigma <=? 0x1p-538) = true ->
  fpow2 sigma = 0
  /\ is_finite (kappa * theta / fpow2 sigma) = false
  /\ ((0 <? kappa * theta) = true -> is_finite (kappa * theta) = true ->
      kappa * theta / fpow2 sigma = infinity)
  /\ is_finite (re (heston_exponent np u t S0 r kappa theta sigma rho v0)) = false
  /\ heston_char_function np u t S0 r kappa theta sigma rho v0
     = np_exp np (heston_exponent np u t S0 r kappa theta sigma rho v0).
Proof.
  intros Hs. pose proof (square_underflow sigma Hs) as Hsq.
  split; [exact Hsq|].
  destruct (heston_exponent_shape np u t S0 r kappa theta sigma rho v0)
    as (X & Z & Y1 & Y2 & Hshape).
  pose proof (div_zero_nonfinite (kappa * theta)) as Hc.
  split; [now rewrite is_finite_spec, Hsq, Hc|].
  split; [intros Hp Hf; rewrite Hsq; now apply div_zero_infinity|].
  split; [|reflexivity].
  rewrite is_finite_spec, Hshape, Hsq. now rewrite nonfinite_coefficient.
Qed.

End Underflow.

(** The hypothesis of [sigma_square_underflow] holds of
    [sigma = 2 ^ -538]. *)
Lemma sigma_square_underflow_witness :
  (abs 0x1p-538 <=? 0x1p-538)%float = true /\ fpow2 0x1p-538 = 0%float.
Proof.
  split; [reflexivity|].
  exact (proj1 (sigma_square_underflow np_nan 1 1 1 0.05 1.5 0.04 0x1p-538
                  (-0.7) 0.04 eq_refl)).
Defined.

(** ** fourier.py: the strike *)

Section Strike.

#[local] Open Scope Z_scope.

Lemma shr_record_of_loc_fields (m : Z) (l : location) :
  shr_m (shr_record_of_loc m l) = m
  /\ loc_of_shr_record (shr_record_of_loc m l) = l.
Proof. destruct l as [|[]]; split; reflexivity. Qed.

Lemma round_nearest_even_cases (q : Z) (l : location) :
  round_nearest_even q l = q \/ round_nearest_even q l = q + 1.
Proof. destruct l as [|[]]; cbn [round_nearest_even]; try destruct (Z.even q); auto. Qed.

(** The quotient of [1] by a number of mantissa [my] above [2 ^ 52] and
    exponent [ey]: its mantissa is [2 ^ 105 / my] or the next integer. *)
Lemma reciprocal (my : positive) (ey : Z) :
  2 ^ 52 < Zpos my < 2 ^ 53 -> -900 <= ey <= 900 ->
  exists M : positive,
    SFdiv prec emax (S754_finite false 4503599627370496 (-52)) (S754_finite false my ey)
    = S754_finite false M (-105 - ey)
    /\ 2 ^ 105 / Zpos my <= Zpos M <= 2 ^ 105 / Zpos my + 1.
Proof.
  intros Hmy Hey.
  assert (Hd2 : Zdigits2 (Zpos my) = 53).
  { apply Z.le_antisymm; [apply Zdigits2_le; lia | apply Zdigits2_ge; lia]. }
  pose proof (Z.div_mod (2 ^ 105) (Zpos my) ltac:(lia)) as Hdm.
  pose proof (Z.mod_pos_bound (2 ^ 105) (Zpos my) ltac:(lia)) as Hr.
  set (Q := 2 ^ 105 / Zpos my) in *. set (R := 2 ^ 105 mod Zpos my) in *.
  assert (HQlo : 2 ^ 52 <= Q).
  { destruct (Z_le_gt_dec (2 ^ 52) Q) as [|Hlt]; [assumption|exfalso].
    assert (Zpos my * (Q + 1) <= Zpos my * 2 ^ 52) by (apply Z.mul_le_mono_nonneg_l; lia).
    change (2 ^ 105) with (2 ^ 53 * 2 ^ 52) in Hdm.
    change (2 ^ 52) with 4503599627370496 in *.
    change (2 ^ 53) with 9007199254740992 in *. lia. }
  assert (HQhi : Q + 1 < 2 ^ 53).
  { destruct (Z_lt_le_dec (Q + 1) (2 ^ 53)) as [|Hge]; [assumption|exfalso].
    assert (Zpos my * (2 ^ 53 - 1) <= Zpos my * Q) by (apply Z.mul_le_mono_nonneg_l; lia).
    change (2 ^ 105) with (2 ^ 53 * 2 ^ 52) in Hdm.
    change (2 ^ 52) with 4503599627370496 in *.
    change (2 ^ 53) with 9007199254740992 in *. lia. }
  assert (HdQ : Zdigits2 Q = 53).
  { apply Z.le_antisymm; [apply Zdigits2_le; lia | apply Zdigits2_ge; lia]. }
  unfold SFdiv, SFdiv_core_binary. cbn [xorb].
  rewrite Hd2. change (Zdigits2 (Zpos 4503599627370496)) with 53.
  rewrite fexp_eq.
  replace (Z.min (Z.max (53 + -52 - (53 + ey) - 53) (-1074)) (-52 - ey))
    with (-105 - ey) by lia.
  replace (-52 - ey - (-105 - ey)) with 53 by lia.
  change (Z.shiftl (Zpos 4503599627370496) 53) with (2 ^ 105).
  assert (Hde : Z.div_eucl (2 ^ 105) (Zpos my) = (Q, R)).
  { subst Q R. unfold Z.div, Z.modulo.
    now destruct (Z.div_eucl (2 ^ 105) (Zpos my)). }
  rewrite Hde.
  set (l := new_location (Zpos my) R).
  unfold binary_round_aux, shr_fexp at 1.
  rewrite HdQ, fexp_eq.
  replace (Z.max (53 + (-105 - ey) - 53) (-1074) - (-105 - ey)) with 0 by lia.
  cbn [shr].
  destruct (shr_record_of_loc_fields Q l) as [-> ->].
  set (M := round_nearest_even Q l).
  assert (HM : M = Q \/ M = Q + 1) by apply round_nearest_even_cases.
  assert (HdM : Zdigits2 M = 53).
  { apply Z.le_antisymm; [apply Zdigits2_le; lia | apply Zdigits2_ge; lia]. }
  unfold shr_fexp. rewrite HdM, fexp_eq.
  replace (Z.max (53 + (-105 - ey) - 53) (-1074) - (-105 - ey)) with 0 by lia.
  cbn [shr shr_record_of_loc shr_m].
  destruct M as [|M|M]; try lia.
  replace (-105 - ey <=? emax - prec) with true
    by (symmetry; apply Z.leb_le; change (emax - prec) with 971; lia).
  exists M. split; [reflexivity | lia].
Qed.

Lemma leb_pos (x y : float) (mx my : positive) (ex ey : Z) :
  Prim2SF x = S754_finite false mx ex ->
  Prim2SF y = S754_finite false my ey ->
  (x <=? y)%float = true <-> Zpos mx * two_pow ex <= Zpos my * two_pow ey.
Proof.
  intros Hx Hy. rewrite FloatAxioms.leb_spec, Hx, Hy. unfold SFleb.
  rewrite (SFcompare_pos mx ex my ey (valid_finite x _ _ _ Hx) (valid_finite y _ _ _ Hy)).
  destruct (Z.compare_spec (Zpos mx * two_pow ex) (Zpos my * two_pow ey));
    split; intros; try discriminate; try reflexivity; lia.
Qed.

(** The quotient [1 / m] for a moneyness in [[0.6, 1.4]]. *)
Lemma reciprocal_range (m : float) :
  (0.6 <=? m)%float = true -> (m <=? 1.4)%float = true ->
  let K := (main_S0 / m)%float in
  (main_S0 / 1.4 <=? K)%float = true /\ (K <=? main_S0 / 0.6)%float = true
  /\ (0 <? K)%float = true /\ is_finite K = true.
Proof.
  intros Hlo Hhi K.
  assert (Hm : exists my ey, Prim2SF m = S754_finite false my ey).
  { rewrite FloatAxioms.leb_spec in Hlo, Hhi.
    change (Prim2SF 0.6) with (S754_finite false 5404319552844595 (-53)) in Hlo.
    change (Prim2SF 1.4) with (S754_finite false 6305039478318694 (-52)) in Hhi.
    destruct (Prim2SF m) as [s|[]| |[] my ey]; try discriminate. eauto. }
  destruct Hm as (my & ey & Hm).
  apply (leb_pos 0.6 m 5404319552844595 my (-53) ey eq_refl Hm) in Hlo.
  apply (leb_pos m 1.4 my 6305039478318694 ey (-52) Hm eq_refl) in Hhi.
  pose proof (valid_finite m _ _ _ Hm) as Hv.
  destruct (bounded_facts my ey Hv) as (Hey & Hmy & Hnorm).
  pose proof (two_pow_pos ey ltac:(unfold pow_offset; lia)) as Hg.
  pose proof (two_pow_succ (-53) ltac:(unfold pow_offset; lia)) as Hs.
  change (-53 + 1) with (-52) in Hs.
  pose proof (two_pow_pos (-53) ltac:(unfold pow_offset; lia)) as Hg53.
  change (2 ^ 52) with 4503599627370496 in *.
  change (2 ^ 53) with 9007199254740992 in *.
  assert (Hey1 : -54 < ey).
  { assert (H : two_pow (-54) < two_pow ey); [|apply two_pow_lt_inv in H; unfold pow_offset; lia].
    pose proof (two_pow_succ (-54) ltac:(unfold pow_offset; lia)) as Hs'.
    change (-54 + 1) with (-53) in Hs'.
    assert (Zpos my * two_pow ey <= 9007199254740992 * two_pow ey)
      by (apply Z.mul_le_mono_nonneg_r; lia).
    lia. }
  specialize (Hnorm ltac:(lia)).
  assert (Hey2 : ey < -51).
  { assert (H : two_pow ey < two_pow (-51)); [|apply two_pow_lt_inv in H; unfold pow_offset; lia].
    pose proof (two_pow_succ (-52) ltac:(unfold pow_offset; lia)) as Hs'.
    change (-52 + 1) with (-51) in Hs'.
    assert (4503599627370496 * two_pow ey <= Zpos my * two_pow ey)
      by (apply Z.mul_le_mono_nonneg_r; lia).
    lia. }
  destruct (Z.eq_dec (Zpos my) 4503599627370496) as [Heq|Hne].
  - (* the moneyness is exactly 1 *)
    assert (Hcase : ey = -53 \/ ey = -52) by lia.
    destruct Hcase as [-> | ->]; [rewrite Heq in Hlo; lia|].
    assert (m = 1%float).
    { apply Prim2SF_inj. rewrite Hm. injection Heq as ->. reflexivity. }
    subst K m. vm_compute. repeat split.
  - destruct (reciprocal my ey ltac:(lia) ltac:(lia)) as (M & HK & HMlo & HMhi).
    assert (HK' : Prim2SF K = S754_finite false M (-105 - ey)).
    { subst K. unfold main_S0. rewrite FloatAxioms.div_spec, Hm. exact HK. }
    assert (HQ52 : 4503599627370496 <= 2 ^ 105 / Zpos my).
    { apply Z.div_le_lower_bound; [lia|].
      change (2 ^ 105) with (4503599627370496 * 9007199254740992). lia. }
    assert (HQ53 : 2 ^ 105 / Zpos my < 9007199254740992).
    { apply Z.div_lt_upper_bound; [lia|].
      change (2 ^ 105) with (4503599627370496 * 9007199254740992). lia. }
    assert (Hbounds :
      6433713753386423 * two_pow (-53) <= Zpos M * two_pow (-105 - ey)
      <= 7505999378950827 * two_pow (-52)).
    { assert (Hcase : ey = -53 \/ ey = -52) by lia.
      destruct Hcase as [-> | ->].
      - change (-105 - -53) with (-52).
        assert (5404319552844595 <= Zpos my)
          by (apply (Z.mul_le_mono_pos_r _ _ (two_pow (-53)) Hg53); exact Hlo).
        assert (2 ^ 105 / Zpos my <= 2 ^ 105 / 5404319552844595)
          by (apply Z.div_le_compat_l; lia).
        change (2 ^ 105 / 5404319552844595) with 7505999378950826 in *.
        assert (Zpos M * two_pow (-52) <= 7505999378950827 * two_pow (-52))
          by (apply Z.mul_le_mono_nonneg_r; lia).
        assert (4503599627370496 * two_pow (-52) <= Zpos M * two_pow (-52))
          by (apply Z.mul_le_mono_nonneg_r; lia).
        lia.
      - change (-105 - -52) with (-53).
        assert (Zpos my <= 6305039478318694)
          by (apply (Z.mul_le_mono_pos_r _ _ (two_pow (-52)) Hg); exact Hhi).
        assert (2 ^ 105 / 6305039478318694 <= 2 ^ 105 / Zpos my)
          by (apply Z.div_le_compat_l; lia).
        change (2 ^ 105 / 6305039478318694) with 6433713753386423 in *.
        assert (6433713753386423 * two_pow (-53) <= Zpos M * two_pow (-53))
          by (apply Z.mul_le_mono_nonneg_r; lia).
        assert (Zpos M * two_pow (-53) <= 9007199254740992 * two_pow (-53))
          by (apply Z.mul_le_mono_nonneg_r; lia).
        lia. }
    split; [|split; [|split]].
    + apply (leb_pos (main_S0 / 1.4) K 6433713753386423 M (-53) (-105 - ey) eq_refl HK').
      apply Hbounds.
    + apply (leb_pos K (main_S0 / 0.6) M 7505999378950827 (-105 - ey) (-52) HK' eq_refl).
      apply Hbounds.
    + rewrite FloatAxioms.ltb_spec, HK'. reflexivity.
    + rewrite is_finite_spec, HK'. reflexivity.
Qed.

(** X10.  The strike [K = S0 / m] that [main] computes for a sample
    the sampler returned from draws of the unit cube is a finite
    positive number between the binary64 quotients [1 / 1.4] and
    [1 / 0.6]: the division never meets a zero moneyness, and
    [np.log(K)] is taken of a positive finite number. *)
Theorem strike_range (lhs_random : Z -> list vec8) (n : Z) (p : vec8) :
  Forall unit_cube (lhs_random n) ->
  In p (generate_lhs_samples lhs_random n) ->
  let K := (main_S0 / c0 p)%float in
  (main_S0 / 1.4 <=? K)%float = true /\ (K <=? main_S0 / 0.6)%float = true
  /\ (0 <? K)%float = true /\ is_finite K = true.
Proof.
  intros Hcube Hin. rewrite generate_lhs_samples_rows in Hin.
  apply List.in_map_iff in Hin. destruct Hin as (u & <- & Hu).
  rewrite List.Forall_forall in Hcube.
  destruct (scale_row_in_ranges u (Hcube u Hu)) as ((H0 & H1) & _).
  now apply reciprocal_range.
Qed.

End Strike.

(** The hypotheses of [strike_range] hold of the first sample returned
    from [two_draws]. *)
Lemma strike_range_witness :
  Forall unit_cube two_draws
  /\ In (scale_row (Vec8 0 0 0 0 0 0 0 0)) (generate_lhs_samples (fun _ => two_draws) 2)
  /\ (0 <? main_S0 / c0 (scale_row (Vec8 0 0 0 0 0 0 0 0)))%float = true.
Proof.
  assert (Hcube : Forall unit_cube two_draws) by (unfold two_draws; repeat constructor).
  assert (Hin : In (scale_row (Vec8 0 0 0 0 0 0 0 0))
                  (generate_lhs_samples (fun _ => two_draws) 2)) by (left; reflexivity).
  split; [exact Hcube|]. split; [exact Hin|].
  exact (proj1 (proj2 (proj2 (strike_range (fun _ => two_draws) 2 _ Hcube Hin)))).
Defined.

(** ** fourier.py: samples with [sigma ** 2 = 0] *)

Section SamplerUnderflow.

#[local] Open Scope float_scope.

Lemma small_draw (x : float) :
  (0 <=? x) = true -> (x <=? 0x1p-537) = true ->
  nn_le x (4503599627370496 * two_pow (-589)).
Proof.
  rewrite !FloatAxioms.leb_spec, Prim2SF_zero.
  change (Prim2SF 0x1p-537) with (S754_finite false 4503599627370496 (-589)).
  intros H0 H1.
  destruct (Prim2SF x) as [s|[]| |[] m e] eqn:Hx; try discriminate.
  - left. eauto.
  - right. exists m, e. split; [exact Hx|].
    pose proof (valid_finite x _ _ _ Hx) as Hv.
    unfold SFleb in H1.
    rewrite (SFcompare_pos m e 4503599627370496 (-589) Hv eq_refl) in H1.
    destruct (Z.compare_spec (Zpos m * two_pow e) (4503599627370496 * two_pow (-589))%Z);
      try discriminate; lia.
Qed.

Lemma nn_le_abs (z hi : float) (B : Z) (mh : positive) (eh : Z) :
  nn_le z B ->
  Prim2SF hi = S754_finite false mh eh ->
  (B <= Zpos mh * two_pow eh)%Z ->
  (abs z <=? hi) = true.
Proof.
  intros Hz Hhi HB.
  rewrite FloatAxioms.leb_spec, FloatAxioms.abs_spec, Hhi.
  pose proof (valid_finite hi _ _ _ Hhi) as Hvh.
  destruct Hz as [[s Hz]|(m & e & Hz & Hle)]; rewrite Hz; [reflexivity|].
  pose proof (valid_finite z _ _ _ Hz) as Hvz.
  cbn [SFabs]. unfold SFleb. rewrite (SFcompare_pos m e mh eh Hvz Hvh).
  destruct (Z.compare_spec (Zpos m * two_pow e) (Zpos mh * two_pow eh)); try reflexivity. lia.
Qed.

Lemma small_sigma (x : float) :
  (0 <=? x) = true -> (x <=? 0x1p-537) = true ->
  (abs (0.0 + x * (0.5 - 0.0)) <=? 0x1p-538) = true.
Proof.
  intros H0 H1. pose proof (small_draw x H0 H1) as Hx.
  assert (Hm : nn_le (x * (0.5 - 0.0)) (4503599627370496 * two_pow (-590))).
  { apply (mul_nn_le (0.5 - 0.0) 0x1p-538 4503599627370496 4503599627370496
             (-53) (-590) eq_refl eq_refl ltac:(lia) x _ Hx).
    zcheck. }
  apply add_zero_nn_le in Hm.
  apply (nn_le_abs _ 0x1p-538 _ 4503599627370496 (-590) Hm eq_refl). lia.
Qed.

Context (lhs_random : Z -> list vec8).

(** X11.  The sampler reaches the division by zero: a draw whose
    seventh coordinate lies between [0] and [2 ^ -537] (the unit cube
    holds such draws, [0] among them) is mapped to a sample of
    [generate_lhs_samples] with [sigma ** 2 = 0], for which the
    coefficient [kappa * theta / sigma ** 2] is NaN or an infinity and
    the real part of the exponent of [heston_char_function] is NaN or
    an infinity at every frequency. *)
Theorem sampler_reaches_square_underflow (n : Z) (u : vec8) :
  In u (lhs_random n) ->
  (0 <=? c6 u) = true -> (c6 u <=? 0x1p-537) = true ->
  let p := scale_row u in
  In p (generate_lhs_samples lhs_random n)
  /\ fpow2 (c6 p) = 0
  /\ is_finite (c4 p * c5 p / fpow2 (c6 p)) = false
  /\ forall np freq t S0,
       is_finite (re (heston_exponent np freq t S0
                        (c2 p) (c4 p) (c5 p) (c6 p) (c3 p) (c7 p))) = false.
Proof.
  intros Hin H0 H1 p.
  assert (Hs : (abs (c6 p) <=? 0x1p-538) = true).
  { subst p. unfold scale_row; cbn [c6]. now apply small_sigma. }
  split.
  - rewrite generate_lhs_samples_rows. now apply List.in_map.
  - split; [now apply square_underflow|].
    split.
    + rewrite is_finite_spec, (square_underflow _ Hs).
      now rewrite div_zero_nonfinite.
    + intros np freq t S0.
      rewrite is_finite_spec.
      destruct (heston_exponent_shape np freq t S0 (c2 p) (c4 p) (c5 p) (c6 p) (c3 p) (c7 p))
        as (X & Z & Y1 & Y2 & ->).
      rewrite (square_underflow _ Hs).
      rewrite nonfinite_coefficient; [reflexivity | apply div_zero_nonfinite].
Qed.

End SamplerUnderflow.

(** The hypotheses of [sampler_reaches_square_underflow] hold of the
    first of [two_draws], whose seventh coordinate is 0. *)
Lemma sampler_reaches_square_underflow_witness :
  In (Vec8 0 0 0 0 0 0 0 0) two_draws
  /\ fpow2 (c6 (scale_row (Vec8 0 0 0 0 0 0 0 0))) = 0%float.
Proof.
  assert (Hin : In (Vec8 0 0 0 0 0 0 0 0) two_draws) by (left; reflexivity).
  split; [exact Hin|].
  exact (proj1 (proj2 (sampler_reaches_square_underflow (fun _ => two_draws) 2
                         (Vec8 0 0 0 0 0 0 0 0) Hin eq_refl eq_refl))).
Defined.
